(** * FilterThread.cpp of G'MIC-Qt: the status decoder and the worker run

    A shallow embedding of [src/FilterThread.cpp].

    - C strings are lists of [ascii] whose terminating
      NUL is implicit; [strlen] stops at the first NUL, as in C.
    - [int] variables are [Z]; the only place where a value can leave the
      range of [int] is the cast of [strlen]'s result, written out as
      [int_of_size_t].
    - [gmic_image<T>] (CImg) is a record of its four dimensions and its
      buffer; [gmic_list<T>] is a list of images.
    - [QString] and [QByteArray] are byte strings, the local 8-bit
      conversions being the identity on them.
    - The interpreter is an interface ([Engine]) whose operations may
      throw; the [try] block of [FilterThread::run] is written in a small
      state-and-exception monad. *)

From Stdlib Require Import ZArith List Ascii String Bool Lia Floats.
Import ListNotations.
Local Open Scope string_scope.
Local Open Scope list_scope.
Local Open Scope Z_scope.

(** ** Characters and C strings *)

Definition NUL : ascii := Ascii.zero.

(** Value of a [char] in an [int] expression ([char] taken signed, as on
    the usual targets). *)
Definition char_val (c : ascii) : Z :=
  let n := Z.of_N (N_of_ascii c) in
  if n <? 128 then n else n - 256.

(** [status[i]]: reading past the buffer meets the terminating NUL. *)
Definition char_at (s : list ascii) (i : Z) : ascii :=
  nth (Z.to_nat i) s NUL.

Fixpoint strlen (s : list ascii) : nat :=
  match s with
  | [] => O
  | c :: s' => if Ascii.eqb c NUL then O else S (strlen s')
  end.

(** The bytes a reader of the C string sees. *)
Definition c_str (s : list ascii) : list ascii := firstn (strlen s) s.

(** [(int)n] for a [size_t] n, two's complement on 32 bits. *)
Definition int_of_size_t (n : nat) : Z :=
  (Z.of_nat n + 2 ^ 31) mod 2 ^ 32 - 2 ^ 31.

(** ** CImg images and lists *)

Record gmic_image (T : Type) : Type := CImg {
  _width : Z;
  _height : Z;
  _depth : Z;
  _spectrum : Z;
  _data : list T
}.
Arguments CImg {T} _ _ _ _ _.
Arguments _width {T} _.
Arguments _height {T} _.
Arguments _depth {T} _.
Arguments _spectrum {T} _.
Arguments _data {T} _.

Definition gmic_list (T : Type) : Type := list (gmic_image T).

Definition CImg_empty {T : Type} : gmic_image T := CImg 0 0 0 0 [].

(** [gmic_image<T>(sx,sy,sz,sc,value)]: every cell holds [value]. *)
Definition CImg_filled {T : Type} (sx sy sz sc : Z) (value : T) : gmic_image T :=
  if sx * sy * sz * sc =? 0 then CImg_empty
  else CImg sx sy sz sc (repeat value (Z.to_nat (sx * sy * sz * sc))).

(** [gmic_image<T> it(sx)]: a row of [sx] cells; C++ leaves them
    uninitialised, [junk] stands for what they hold. *)
Definition CImg_sized {T : Type} (junk : T) (sx : Z) : gmic_image T :=
  if sx =? 0 then CImg_empty
  else CImg sx 1 1 1 (repeat junk (Z.to_nat sx)).

(** [it.back() = v]. *)
Definition set_back {T : Type} (it : gmic_image T) (v : T) : gmic_image T :=
  CImg (_width it) (_height it) (_depth it) (_spectrum it)
       (removelast (_data it) ++ [v]).

(** [std::memcpy(it, src, n)] for cells of one byte. *)
Definition memcpy {T : Type} (it : gmic_image T) (src : list T) (n : Z)
  : gmic_image T :=
  CImg (_width it) (_height it) (_depth it) (_spectrum it)
       (firstn (Z.to_nat n) src ++ skipn (Z.to_nat n) (_data it)).

(** [img.move_to(list)]: appended at the end. *)
Definition move_to {T : Type} (img : gmic_image T) (l : gmic_list T)
  : gmic_list T := l ++ [img].

(** ** The status decoder *)

(** Modelled from the spec: the macros [gmic_lbrace] and [gmic_rbrace] come
    from gmic.h, which is not part of the sources at hand; the spec calls
    them the opening and the closing brace and writes them [{] and [}]. *)
Definition gmic_lbrace : ascii := "{"%char.
Definition gmic_rbrace : ascii := "}"%char.

(** Lines 119-120: the item pushed for the segment [status[pk..ck)]. *)
Definition token_item (status : list ascii) (pk ck : Z) : gmic_image ascii :=
  let it := CImg_sized NUL (ck - pk + 1) in
  let it := set_back it NUL in
  memcpy it (skipn (Z.to_nat pk) status) (_width it - 1).

(** Line 118: does a [_0], [_1] or [_2] follow the closing brace at [k]? *)
Definition suffix_at (status : list ascii) (len k : Z) : bool :=
  (k <? len - 2)
  && Ascii.eqb (char_at status (k + 1)) "_"%char
  && (char_val "0"%char <=? char_val (char_at status (k + 2)))
  && (char_val (char_at status (k + 2)) <=? char_val "2"%char).

(** The [for] loop of lines 103-125.  [k] grows at every iteration, so
    [len - k] iterations are enough; [None] is an exhausted [fuel]. *)
Fixpoint status2Items_loop (fuel : nat) (status : list ascii) (len : Z)
    (output_visibility : bool) (k : Z) (is_inside : bool) (pk : Z)
    (out : gmic_list ascii) {struct fuel} : option (gmic_list ascii) :=
  if k <? len then
    match fuel with
    | O => None
    | S fuel =>
      let c := char_at status k in
      if Ascii.eqb c gmic_lbrace then
        if negb is_inside then
          if len - 1 <=? k then Some []
          else status2Items_loop fuel status len output_visibility
                 (k + 1) true (k + 1) out
        else status2Items_loop fuel status len output_visibility
               (k + 1) is_inside pk out
      else if Ascii.eqb c gmic_rbrace then
        if negb is_inside then Some []
        else
          let ck := k in
          let visibility :=
            if suffix_at status len k then char_at status (k + 2) else NUL in
          let k := if suffix_at status len k then k + 2 else k in
          let out :=
            if output_visibility
            then move_to (CImg_filled 1 1 1 1 visibility) out
            else move_to (token_item status pk ck) out in
          status2Items_loop fuel status len output_visibility
            (k + 1) false pk out
      else
        if negb is_inside then Some []
        else status2Items_loop fuel status len output_visibility
               (k + 1) is_inside pk out
    end
  else Some out.

(** [status2Items(status, output_visibility)]; [None] is the null
    pointer. *)
Definition status2Items (status : option (list ascii))
    (output_visibility : bool) : gmic_list ascii :=
  match status with
  | None => []
  | Some s =>
    if negb (Ascii.eqb (char_at s 0) gmic_lbrace) then []
    else
      let len := int_of_size_t (strlen s) in
      match status2Items_loop (Z.to_nat len) s len output_visibility
              0 false 0 [] with
      | Some out => out
      | None => []
      end
  end.

(** ** The two public decoders *)

Definition QString : Type := string.
Definition QByteArray : Type := list ascii.

Definition toLocal8Bit (s : QString) : QByteArray := list_ascii_of_string s.

(** A [QString] built from a C string: the bytes up to the first NUL. *)
Definition QString_of_chars (p : list ascii) : QString :=
  string_of_list_ascii (c_str p).

(** [ba.constData()] is never null. *)
Definition constData (ba : QByteArray) : option (list ascii) := Some ba.

Definition status2StringList (status : QString) : list QString :=
  let ba := toLocal8Bit status in
  let clist := status2Items (constData ba) false in
  map (fun img => QString_of_chars (_data img)) clist.

Section Visibilities.

(** [AbstractParameter::VisibilityState::Unspecified], declared in a
    header that is not part of the sources at hand. *)
Variable Unspecified : Z.

Definition status2Visibilities (status : QString) : list Z :=
  let ba := toLocal8Bit status in
  let clist := status2Items (constData ba) true in
  map (fun img =>
         let c := nth 0 (_data img) NUL in
         if Ascii.eqb c NUL then Unspecified
         else char_val c - char_val "0"%char)
      clist.

End Visibilities.

(** Items as literals, for reading results. *)
Definition visibility_item (v : ascii) : gmic_image ascii := CImg 1 1 1 1 [v].

Definition string_item (s : string) : gmic_image ascii :=
  CImg (Z.of_nat (String.length s) + 1) 1 1 1
       (list_ascii_of_string s ++ [NUL]).

Definition bytes (s : string) : option (list ascii) :=
  Some (list_ascii_of_string s).


(** ** The scan, read off the list of remaining characters

    A second reading of the loop, by recursion on the characters that are
    left: [cur] is the text since the opening brace.  It is a proof device;
    [status2Items_scan] relates it to the loop above. *)

Definition is_visibility (v : ascii) : bool :=
  (char_val "0"%char <=? char_val v) && (char_val v <=? char_val "2"%char).

Definition item (output_visibility : bool) (body : list ascii)
    (visibility : ascii) : gmic_image ascii :=
  if output_visibility then CImg 1 1 1 1 [visibility]
  else CImg (Z.of_nat (List.length body) + 1) 1 1 1 (body ++ [NUL]).

Fixpoint scan (output_visibility : bool) (rest : list ascii)
    (is_inside : bool) (cur : list ascii) (out : gmic_list ascii)
    {struct rest} : gmic_list ascii :=
  match rest with
  | [] => out
  | c :: rest' =>
    if Ascii.eqb c gmic_lbrace then
      if is_inside then scan output_visibility rest' true (cur ++ [c]) out
      else
        match rest' with
        | [] => []
        | _ :: _ => scan output_visibility rest' true [] out
        end
    else if Ascii.eqb c gmic_rbrace then
      if is_inside then
        match rest' with
        | u :: v :: rest'' =>
          if Ascii.eqb u "_"%char && is_visibility v
          then scan output_visibility rest'' false []
                 (out ++ [item output_visibility cur v])
          else scan output_visibility rest' false []
                 (out ++ [item output_visibility cur NUL])
        | _ => scan output_visibility rest' false []
                 (out ++ [item output_visibility cur NUL])
        end
      else []
    else
      if is_inside then scan output_visibility rest' true (cur ++ [c]) out
      else []
  end.

(** ** Status strings as the interpreter writes them *)

Record segment : Type := Segment {
  seg_body : list ascii;
  seg_visibility : option ascii
}.

Definition render_suffix (v : option ascii) : list ascii :=
  match v with
  | Some d => ["_"%char; d]
  | None => []
  end.

Definition render_segment (sg : segment) : list ascii :=
  gmic_lbrace :: seg_body sg ++ gmic_rbrace :: render_suffix (seg_visibility sg).

Definition render (segs : list segment) : list ascii :=
  flat_map render_segment segs.

(** A segment the decoder takes whole: no closing brace and no NUL in the
    text, and a visibility that is one of ['0'], ['1'], ['2']. *)
Definition wf_segment (sg : segment) : bool :=
  forallb (fun c => negb (Ascii.eqb c gmic_rbrace) && negb (Ascii.eqb c NUL))
          (seg_body sg)
  && match seg_visibility sg with
     | Some d => is_visibility d
     | None => true
     end.

Definition segment_item (output_visibility : bool) (sg : segment)
  : gmic_image ascii :=
  item output_visibility (seg_body sg)
       (match seg_visibility sg with Some d => d | None => NUL end).

(** Do the characters after a closing brace read as a suffix? *)
Definition starts_suffix (rest : list ascii) : bool :=
  match rest with
  | u :: v :: _ => Ascii.eqb u "_"%char && is_visibility v
  | _ => false
  end.

(** Is the last segment still waiting for its suffix? *)
Fixpoint suffix_pending (segs : list segment) : bool :=
  match segs with
  | [] => false
  | sg :: segs' =>
    match segs' with
    | [] => match seg_visibility sg with Some _ => false | None => true end
    | _ :: _ => suffix_pending segs'
    end
  end.

(** What follows the segments [segs] breaks the format: a closing brace
    outside a segment; a character outside a segment that is neither a
    brace nor the start of the last segment's suffix; an opening brace as
    the last character; or an opening brace that is never closed when no
    segment came before. *)
Definition violation (segs : list segment) (rest : list ascii) : bool :=
  match rest with
  | [] => false
  | c :: rest' =>
    if Ascii.eqb c gmic_rbrace then true
    else if Ascii.eqb c gmic_lbrace then
      match rest', segs with
      | [], _ => true
      | _ :: _, [] =>
        forallb (fun c => negb (Ascii.eqb c gmic_rbrace)) rest'
      | _ :: _, _ :: _ => false
      end
    else negb (Ascii.eqb c NUL)
         && negb (suffix_pending segs && starts_suffix rest)
  end.

(** Two segments to try things on: [{a}] and [{b}_2]. *)
Definition seg_a : segment := Segment (list_ascii_of_string "a") None.
Definition seg_b2 : segment :=
  Segment (list_ascii_of_string "b") (Some "2"%char).

(** ** The spec's reading of a broken status string

    The spec's words, for comparison: one boolean, inside a segment or
    not; broken is a closing brace or a non-brace character met outside a
    segment, or the end of the string met inside one. *)
Fixpoint spec_violation (inside : bool) (s : list ascii) : bool :=
  match s with
  | [] => inside
  | c :: s' =>
    if Ascii.eqb c "{"%char then spec_violation true s'
    else if Ascii.eqb c "}"%char then
      if inside then spec_violation false s' else true
    else if inside then spec_violation true s' else true
  end.

(** ** The worker object *)

(** The fields of [FilterThread].  The timer [_startTime] and the calls to
    [Logger] are left out: no other member reads what they write. *)
Record FilterThread : Type := {
  _command : QString;
  _arguments : QString;
  _environment : QString;
  _images : gmic_list float;
  _imageNames : gmic_list ascii;
  _persistentMemoryOutput : gmic_image ascii;
  _gmicAbort : bool;
  _failed : bool;
  _gmicProgress : float;
  _gmicStatus : QString;
  _errorMessage : QString;
  _logSuffix : QString
}.

(** Lines 40-52. *)
Definition FilterThread_ctor (command arguments environment : QString)
  : FilterThread :=
  {| _command := command;
     _arguments := arguments;
     _environment := environment;
     _images := [];
     _imageNames := [];
     _persistentMemoryOutput := CImg_empty;
     _gmicAbort := false;
     _failed := false;
     _gmicProgress := 0%float;
     _gmicStatus := "";
     _errorMessage := "";
     _logSuffix := "" |}.

(** Assignments to single fields. *)
Definition set_images (v : gmic_list float) (t : FilterThread) : FilterThread :=
  {| _command := _command t; _arguments := _arguments t;
     _environment := _environment t; _images := v;
     _imageNames := _imageNames t;
     _persistentMemoryOutput := _persistentMemoryOutput t;
     _gmicAbort := _gmicAbort t; _failed := _failed t;
     _gmicProgress := _gmicProgress t; _gmicStatus := _gmicStatus t;
     _errorMessage := _errorMessage t; _logSuffix := _logSuffix t |}.

Definition set_imageNames (v : gmic_list ascii) (t : FilterThread)
  : FilterThread :=
  {| _command := _command t; _arguments := _arguments t;
     _environment := _environment t; _images := _images t;
     _imageNames := v;
     _persistentMemoryOutput := _persistentMemoryOutput t;
     _gmicAbort := _gmicAbort t; _failed := _failed t;
     _gmicProgress := _gmicProgress t; _gmicStatus := _gmicStatus t;
     _errorMessage := _errorMessage t; _logSuffix := _logSuffix t |}.

Definition set_persistentMemoryOutput (v : gmic_image ascii)
    (t : FilterThread) : FilterThread :=
  {| _command := _command t; _arguments := _arguments t;
     _environment := _environment t; _images := _images t;
     _imageNames := _imageNames t;
     _persistentMemoryOutput := v;
     _gmicAbort := _gmicAbort t; _failed := _failed t;
     _gmicProgress := _gmicProgress t; _gmicStatus := _gmicStatus t;
     _errorMessage := _errorMessage t; _logSuffix := _logSuffix t |}.

Definition set_gmicAbort (v : bool) (t : FilterThread) : FilterThread :=
  {| _command := _command t; _arguments := _arguments t;
     _environment := _environment t; _images := _images t;
     _imageNames := _imageNames t;
     _persistentMemoryOutput := _persistentMemoryOutput t;
     _gmicAbort := v; _failed := _failed t;
     _gmicProgress := _gmicProgress t; _gmicStatus := _gmicStatus t;
     _errorMessage := _errorMessage t; _logSuffix := _logSuffix t |}.

Definition set_failed (v : bool) (t : FilterThread) : FilterThread :=
  {| _command := _command t; _arguments := _arguments t;
     _environment := _environment t; _images := _images t;
     _imageNames := _imageNames t;
     _persistentMemoryOutput := _persistentMemoryOutput t;
     _gmicAbort := _gmicAbort t; _failed := v;
     _gmicProgress := _gmicProgress t; _gmicStatus := _gmicStatus t;
     _errorMessage := _errorMessage t; _logSuffix := _logSuffix t |}.

Definition set_gmicProgress (v : float) (t : FilterThread) : FilterThread :=
  {| _command := _command t; _arguments := _arguments t;
     _environment := _environment t; _images := _images t;
     _imageNames := _imageNames t;
     _persistentMemoryOutput := _persistentMemoryOutput t;
     _gmicAbort := _gmicAbort t; _failed := _failed t;
     _gmicProgress := v; _gmicStatus := _gmicStatus t;
     _errorMessage := _errorMessage t; _logSuffix := _logSuffix t |}.

Definition set_gmicStatus (v : QString) (t : FilterThread) : FilterThread :=
  {| _command := _command t; _arguments := _arguments t;
     _environment := _environment t; _images := _images t;
     _imageNames := _imageNames t;
     _persistentMemoryOutput := _persistentMemoryOutput t;
     _gmicAbort := _gmicAbort t; _failed := _failed t;
     _gmicProgress := _gmicProgress t; _gmicStatus := v;
     _errorMessage := _errorMessage t; _logSuffix := _logSuffix t |}.

Definition set_errorMessage (v : QString) (t : FilterThread) : FilterThread :=
  {| _command := _command t; _arguments := _arguments t;
     _environment := _environment t; _images := _images t;
     _imageNames := _imageNames t;
     _persistentMemoryOutput := _persistentMemoryOutput t;
     _gmicAbort := _gmicAbort t; _failed := _failed t;
     _gmicProgress := _gmicProgress t; _gmicStatus := _gmicStatus t;
     _errorMessage := v; _logSuffix := _logSuffix t |}.

Definition set_logSuffix (v : QString) (t : FilterThread) : FilterThread :=
  {| _command := _command t; _arguments := _arguments t;
     _environment := _environment t; _images := _images t;
     _imageNames := _imageNames t;
     _persistentMemoryOutput := _persistentMemoryOutput t;
     _gmicAbort := _gmicAbort t; _failed := _failed t;
     _gmicProgress := _gmicProgress t; _gmicStatus := _gmicStatus t;
     _errorMessage := _errorMessage t; _logSuffix := v |}.

(** Lines 61-89 and 160-200: the setters and the polled accessors. *)
Definition setImageNames (imageNames : gmic_list ascii) (t : FilterThread)
  : FilterThread := set_imageNames imageNames t.

(** [swapImages(images)]: the thread's list and the caller's change
    places; the caller's new list comes first. *)
Definition swapImages (images : gmic_list float) (t : FilterThread)
  : gmic_list float * FilterThread := (_images t, set_images images t).

Definition setInputImages (list : gmic_list float) (t : FilterThread)
  : FilterThread := set_images list t.

Definition images (t : FilterThread) : gmic_list float := _images t.
Definition imageNames (t : FilterThread) : gmic_list ascii := _imageNames t.
Definition persistentMemoryOutput (t : FilterThread) : gmic_image ascii :=
  _persistentMemoryOutput t.
Definition gmicStatus (t : FilterThread) : list QString :=
  status2StringList (_gmicStatus t).
Definition parametersVisibilityStates (Unspecified : Z) (t : FilterThread)
  : list Z := status2Visibilities Unspecified (_gmicStatus t).
Definition errorMessage (t : FilterThread) : QString := _errorMessage t.
Definition failed (t : FilterThread) : bool := _failed t.
Definition aborted (t : FilterThread) : bool := _gmicAbort t.
Definition progress (t : FilterThread) : float := _gmicProgress t.
Definition setLogSuffix (text : QString) (t : FilterThread) : FilterThread :=
  set_logSuffix text t.
Definition abortGmic (t : FilterThread) : FilterThread := set_gmicAbort true t.

(** ** The interpreter, from outside *)

(** [gmic_exception]: [what] is the message. *)
Record gmic_exception : Type := { what : list ascii }.

Inductive thrown (A : Type) : Type :=
| Returned (a : A)
| Thrown (e : gmic_exception).
Arguments Returned {A} a.
Arguments Thrown {A} e.

(** The two cells the interpreter holds pointers to: [&_gmicProgress] and
    [&_gmicAbort].  It may read and write them in any of its calls. *)
Record cells : Type := { progress_cell : float; abort_cell : bool }.

(** The interpreter is a black box.  Each call may throw; [run] works in
    place on the image list and the name list, also when it throws. *)
Record Engine : Type := {
  gmic : Type;
  gmic_ctor : option (list ascii) -> list ascii -> bool ->
              cells -> thrown gmic * cells;
  set_variable_image : gmic -> list ascii -> gmic_image ascii ->
                       cells -> thrown gmic * cells;
  set_variable : gmic -> list ascii -> ascii -> option (list ascii) ->
                 cells -> thrown gmic * cells;
  gmic_run : gmic -> option (list ascii) ->
             gmic_list float -> gmic_list ascii ->
             cells -> thrown gmic * (gmic_list float * gmic_list ascii) * cells;
  gmic_status : gmic -> gmic_image ascii;
  get_variable : gmic -> list ascii -> gmic_image ascii
}.

(** What [run] reads from the rest of the plug-in, none of it defined in
    the file at hand. *)
Record Host : Type := {
  (** [commandFromOutputMessageMode(Settings::outputMessageMode())] *)
  outputMessageCommand : QString;
  (** [appendWithSpace(str, other)], giving the new [str] *)
  appendWithSpace : QString -> QString -> QString;
  (** [GmicStdLib::Array.constData()] *)
  GmicStdLib_Array : list ascii;
  (** [GmicQtHost::ApplicationShortname] *)
  ApplicationShortname : list ascii;
  (** [PersistentMemory::image()] *)
  PersistentMemory_image : gmic_image ascii;
  gmic_store : ascii
}.

(** ** The [try] block: state and exceptions *)

Definition Try (A : Type) : Type := FilterThread -> thrown A * FilterThread.

Definition ret {A : Type} (a : A) : Try A := fun t => (Returned a, t).

Definition bind {A B : Type} (m : Try A) (f : A -> Try B) : Try B :=
  fun t =>
    match m t with
    | (Returned a, t') => f a t'
    | (Thrown e, t') => (Thrown e, t')
    end.

Notation "x <- m ;; f" := (bind m (fun x => f))
  (at level 61, m at next level, right associativity).

Definition assign (f : FilterThread -> FilterThread) : Try unit :=
  fun t => (Returned tt, f t).

Definition the_cells (t : FilterThread) : cells :=
  {| progress_cell := _gmicProgress t; abort_cell := _gmicAbort t |}.

Definition store_cells (c : cells) (t : FilterThread) : FilterThread :=
  set_gmicAbort (abort_cell c) (set_gmicProgress (progress_cell c) t).

(** A call of the interpreter that touches the two cells only. *)
Definition call {A : Type} (op : cells -> thrown A * cells) : Try A :=
  fun t => let (r, c) := op (the_cells t) in (r, store_cells c t).

(** A call that also works on [*_images] and [*_imageNames]. *)
Definition call_on_images {A : Type}
    (op : gmic_list float -> gmic_list ascii -> cells ->
          thrown A * (gmic_list float * gmic_list ascii) * cells) : Try A :=
  fun t =>
    match op (_images t) (_imageNames t) (the_cells t) with
    | (r, (imgs, names), c) =>
      (r, store_cells c (set_imageNames names (set_images imgs t)))
    end.

Definition is_empty {T : Type} (img : gmic_image T) : bool :=
  match _data img with
  | [] => true
  | _ :: _ => false
  end.

Section Run.

Variable E : Engine.
Variable H : Host.

Definition fullCommand (t : FilterThread) : QString :=
  appendWithSpace H (_command t) (_arguments t).

(** Lines 204-213: what [run] does before it builds the interpreter. *)
Definition run_prologue (t : FilterThread) : QString * FilterThread :=
  let t := set_errorMessage "" t in
  let t := set_failed false t in
  let fullCommandLine := outputMessageCommand H in
  let fullCommandLine := appendWithSpace H fullCommandLine (_command t) in
  let fullCommandLine := appendWithSpace H fullCommandLine (_arguments t) in
  let t := set_gmicAbort false t in
  let t := set_gmicProgress (-1)%float t in
  (fullCommandLine, t).

(** Lines 215-225: the interpreter is built, given its variables and
    run. *)
Definition invoke (fullCommandLine : QString) : Try (gmic E) :=
  fun t =>
    (gmicInstance <-
       call (gmic_ctor E
               (if String.eqb (_environment t) "" then None
                else Some (toLocal8Bit (_environment t)))
               (GmicStdLib_Array H) true) ;;
     gmicInstance <-
       (if negb (is_empty (PersistentMemory_image H)) then
          if Ascii.eqb (nth 0 (_data (PersistentMemory_image H)) NUL)
                       (gmic_store H)
          then call (set_variable_image E gmicInstance
                       (list_ascii_of_string "_persistent")
                       (PersistentMemory_image H))
          else call (set_variable E gmicInstance
                       (list_ascii_of_string "_persistent") "="%char
                       (Some (_data (PersistentMemory_image H))))
        else ret gmicInstance) ;;
     gmicInstance <-
       call (set_variable E gmicInstance (list_ascii_of_string "_host")
               "="%char (Some (ApplicationShortname H))) ;;
     gmicInstance <-
       call (set_variable E gmicInstance (list_ascii_of_string "_tk")
               "="%char (Some (list_ascii_of_string "qt"))) ;;
     call_on_images
       (gmic_run E gmicInstance
          (constData (toLocal8Bit fullCommandLine)))) t.

(** Lines 208-227: the whole [try] block after the prologue. *)
Definition run_try (fullCommandLine : QString) : Try unit :=
  gmicInstance <- invoke fullCommandLine ;;
  _ <- assign (set_gmicStatus
                 (QString_of_chars (_data (gmic_status E gmicInstance)))) ;;
  assign (set_persistentMemoryOutput
            (get_variable E gmicInstance
               (list_ascii_of_string "_persistent"))).

(** Lines 228-235: the handler. *)
Definition run_catch (e : gmic_exception) (t : FilterThread)
  : FilterThread :=
  let t := set_images [] t in
  let t := set_imageNames [] t in
  let message := what e in
  let t := set_errorMessage (QString_of_chars message) t in
  set_failed true t.

Definition run (t : FilterThread) : FilterThread :=
  let (fullCommandLine, t) := run_prologue t in
  match run_try fullCommandLine t with
  | (Returned _, t) => t
  | (Thrown e, t) => run_catch e t
  end.

End Run.

(** [m] never changes what [f] reads off the thread. *)
Definition keeps {A X : Type} (f : FilterThread -> X) (m : Try A) : Prop :=
  forall t, f (snd (m t)) = f t.

(** The interpreter invocation of [run] on the thread [t]: its outcome and
    the thread as the invocation leaves it. *)
Definition invocation (E : Engine) (H : Host) (t : FilterThread)
  : thrown (gmic E) * FilterThread :=
  let (fullCommandLine, t) := run_prologue H t in
  invoke E H fullCommandLine t.

(** ** A small interpreter and host, to run the model on

    The instance is the last command it ran; [run] throws on the command
    that ends in [boom] and otherwise names its single output image. *)
Definition sample_status : list ascii := list_ascii_of_string "{12}{7}_2".
Definition sample_persistent : gmic_image ascii :=
  CImg 3 1 1 1 (list_ascii_of_string "abc").
Definition sample_error : list ascii :=
  list_ascii_of_string "Unknown command 'boom'".

Definition ends_in_boom (cmd : option (list ascii)) : bool :=
  match cmd with
  | Some l =>
    match rev l with
    | "m"%char :: "o"%char :: "o"%char :: "b"%char :: _ => true
    | _ => false
    end
  | None => false
  end.

Definition sample_engine : Engine :=
  {| gmic := option (list ascii);
     gmic_ctor := fun env _ _ c => (Returned env, c);
     set_variable_image := fun g _ _ c => (Returned g, c);
     set_variable := fun g _ _ _ c => (Returned g, c);
     gmic_run := fun _ cmd imgs names c =>
       if ends_in_boom cmd
       then (Thrown {| what := sample_error |}, (imgs, names),
             {| progress_cell := 50%float; abort_cell := abort_cell c |})
       else (Returned cmd,
             (imgs, [CImg 4 1 1 1 (list_ascii_of_string "out" ++ [NUL])]),
             {| progress_cell := 100%float; abort_cell := abort_cell c |});
     gmic_status := fun _ => CImg 11 1 1 1 (sample_status ++ [NUL]);
     get_variable := fun _ _ => sample_persistent |}.

Definition sample_host : Host :=
  {| outputMessageCommand := "v -";
     appendWithSpace := fun str other =>
       if String.eqb str "" then other
       else if String.eqb other "" then str
       else String.append str (String " "%char other);
     GmicStdLib_Array := [];
     ApplicationShortname := list_ascii_of_string "host";
     PersistentMemory_image := CImg_empty;
     gmic_store := "029"%char |}.

Definition sample_input : gmic_list float := [CImg 1 1 1 1 [1%float]].

Definition sample_thread (command arguments : QString) : FilterThread :=
  setInputImages sample_input
    (setImageNames [CImg 3 1 1 1 (list_ascii_of_string "in" ++ [NUL])]
       (FilterThread_ctor command arguments "")).

(** ** Vocabulary for the decoders' results *)

(** The four entries visibility mode can push (line 94 of the source). *)
Definition visibility_entries : list (gmic_image ascii) :=
  map visibility_item [NUL; "0"%char; "1"%char; "2"%char].

(** A token-mode entry: a row holding a text without closing brace and
    without NUL, and the terminating NUL. *)
Definition token_entry (img : gmic_image ascii) : Prop :=
  exists body : list ascii,
    img = item false body NUL
    /\ Forall (fun c => c <> gmic_rbrace /\ c <> NUL) body.

(** A status string as a [QString], and what its segments stand for. *)
Definition status_string (segs : list segment) : QString :=
  string_of_list_ascii (render segs).

Definition segment_text (sg : segment) : QString :=
  string_of_list_ascii (seg_body sg).

Definition segment_code (Unspecified : Z) (sg : segment) : Z :=
  match seg_visibility sg with
  | Some d => char_val d - char_val "0"%char
  | None => Unspecified
  end.

(** What may be left after the last complete segment of a string that
    decodes to something: nothing, or an opening brace and at least one
    character, none of them a closing brace. *)
Definition open_tail (tail : list ascii) : bool :=
  match tail with
  | [] => true
  | c :: body =>
    Ascii.eqb c gmic_lbrace
    && match body with [] => false | _ :: _ => true end
    && forallb (fun x => negb (Ascii.eqb x gmic_rbrace)) body
  end.

(** The characters a segment's text may hold. *)
Definition text_char (c : ascii) : bool :=
  negb (Ascii.eqb c gmic_rbrace) && negb (Ascii.eqb c NUL).

(** ** Basic facts on C strings and images *)

Lemma strlen_le (s : list ascii) : (strlen s <= List.length s)%nat.
Proof.
  induction s as [|c s IH]; simpl; [lia|].
  destruct (Ascii.eqb c NUL); lia.
Qed.

Lemma c_str_length (s : list ascii) : List.length (c_str s) = strlen s.
Proof.
  unfold c_str. rewrite length_firstn. pose proof (strlen_le s). lia.
Qed.

Lemma c_str_nth (s : list ascii) (i : nat) :
  (i < strlen s)%nat -> nth i (c_str s) NUL = nth i s NUL.
Proof.
  intros Hi. unfold c_str. rewrite nth_firstn.
  destruct (Nat.ltb_spec i (strlen s)); [reflexivity | lia].
Qed.

Lemma strlen_app_no_NUL (a b : list ascii) :
  Forall (fun c => c <> NUL) a ->
  strlen (a ++ b) = (List.length a + strlen b)%nat.
Proof.
  induction 1 as [|c a Hc _ IH]; simpl; [reflexivity|].
  destruct (Ascii.eqb_spec c NUL); [contradiction|].
  now rewrite IH.
Qed.

Lemma c_str_app_no_NUL (a b : list ascii) :
  Forall (fun c => c <> NUL) a -> c_str (a ++ b) = a ++ c_str b.
Proof.
  intros Ha. unfold c_str. rewrite (strlen_app_no_NUL _ _ Ha).
  now rewrite firstn_app_2.
Qed.

Lemma c_str_cons (c : ascii) (s : list ascii) :
  c <> NUL -> c_str (c :: s) = c :: c_str s.
Proof.
  intros Hc. unfold c_str. simpl.
  destruct (Ascii.eqb_spec c NUL); [contradiction | reflexivity].
Qed.

Lemma int_of_size_t_small (n : nat) :
  Z.of_nat n < 2 ^ 31 -> int_of_size_t n = Z.of_nat n.
Proof.
  intros Hn. unfold int_of_size_t.
  rewrite Z.mod_small; lia.
Qed.

Lemma skipn_nth_cons {T : Type} (d : T) (l : list T) (i : nat) :
  (i < List.length l)%nat -> skipn i l = nth i l d :: skipn (S i) l.
Proof.
  revert i. induction l as [|x l IH]; intros i Hi; simpl in Hi; [lia|].
  destruct i as [|i]; [reflexivity|].
  simpl. apply IH. lia.
Qed.

Lemma firstn_nth_snoc {T : Type} (d : T) (l : list T) (i : nat) :
  (i < List.length l)%nat -> firstn (S i) l = firstn i l ++ [nth i l d].
Proof.
  revert i. induction l as [|x l IH]; intros i Hi; simpl in Hi; [lia|].
  destruct i as [|i]; [reflexivity|].
  simpl. f_equal. apply IH. lia.
Qed.

Lemma removelast_repeat {T : Type} (x : T) (n : nat) :
  removelast (repeat x (S n)) = repeat x n.
Proof.
  induction n as [|n IH]; [reflexivity|].
  change (repeat x (S (S n))) with (x :: repeat x (S n)).
  change (repeat x (S n)) with (x :: repeat x n) at 2.
  rewrite <- IH. reflexivity.
Qed.

(** The item of lines 119-120 is the text between the braces and a NUL;
    what the fresh cells held does not matter. *)
Lemma token_item_data (status : list ascii) (pk ck : Z) :
  0 <= pk <= ck ->
  ck <= Z.of_nat (List.length status) ->
  token_item status pk ck =
  item false (firstn (Z.to_nat (ck - pk)) (skipn (Z.to_nat pk) status)) NUL.
Proof.
  intros Hpk Hck. unfold token_item, item, CImg_sized.
  destruct (Z.eqb_spec (ck - pk + 1) 0) as [E|_]; [lia|].
  unfold set_back, memcpy; cbn [_width _height _depth _spectrum _data].
  replace (Z.to_nat (ck - pk + 1)) with (S (Z.to_nat (ck - pk))) by lia.
  rewrite removelast_repeat.
  replace (ck - pk + 1 - 1) with (ck - pk) by lia.
  rewrite skipn_app, repeat_length, Nat.sub_diag.
  rewrite (skipn_all2 (repeat NUL _)) by (rewrite repeat_length; lia).
  cbn [skipn app].
  rewrite length_firstn, length_skipn.
  f_equal. lia.
Qed.

(** ** The loop returns *)

(** Case analysis on every test of the goal. *)
Ltac case_tests :=
  repeat match goal with
         | |- context [if ?b then _ else _] => destruct b
         end.

Lemma status2Items_loop_total (status : list ascii) (len : Z) (ov : bool) :
  forall (fuel : nat) (k : Z) (is_inside : bool) (pk : Z)
         (out : gmic_list ascii),
    (Z.to_nat (len - k) <= fuel)%nat ->
    exists r,
      status2Items_loop fuel status len ov k is_inside pk out = Some r.
Proof.
  induction fuel as [|fuel IH]; intros k ins pk out Hf;
    cbn [status2Items_loop]; destruct (Z.ltb_spec k len); eauto; try lia.
  case_tests; eauto; apply IH; lia.
Qed.

(** With the fuel [status2Items] gives it, the loop never stops short. *)
Lemma status2Items_fuel_enough (s : list ascii) (ov : bool) :
  let len := int_of_size_t (strlen s) in
  exists r, status2Items_loop (Z.to_nat len) s len ov 0 false 0 [] = Some r.
Proof.
  intros len. apply status2Items_loop_total. lia.
Qed.

(** ** Both modes push an item at the same iterations *)

Lemma status2Items_loop_same_count (status : list ascii) (len : Z) :
  forall (fuel : nat) (k : Z) (is_inside : bool) (pk : Z)
         (o1 o2 : gmic_list ascii),
    List.length o1 = List.length o2 ->
    option_map (@List.length _)
      (status2Items_loop fuel status len true k is_inside pk o1) =
    option_map (@List.length _)
      (status2Items_loop fuel status len false k is_inside pk o2).
Proof.
  induction fuel as [|fuel IH]; intros k ins pk o1 o2 Ho;
    cbn [status2Items_loop]; destruct (Z.ltb_spec k len);
    cbn [option_map]; try congruence.
  case_tests; try reflexivity; apply IH; try assumption;
    unfold move_to; rewrite !length_app; cbn [List.length]; lia.
Qed.

(** ** The loop computes the scan *)

Lemma scan_rbrace_inside (ov : bool) (rest' cur : list ascii)
    (out : gmic_list ascii) :
  scan ov (gmic_rbrace :: rest') true cur out =
  if starts_suffix rest'
  then scan ov (skipn 2 rest') false []
         (out ++ [item ov cur (nth 1 rest' NUL)])
  else scan ov rest' false [] (out ++ [item ov cur NUL]).
Proof.
  destruct rest' as [|u [|v rest'']]; reflexivity.
Qed.

Section LoopScan.

Variable s : list ascii.
Variable len : Z.
Hypothesis len_strlen : len = Z.of_nat (strlen s).

Lemma rest_step (k : Z) :
  0 <= k < len ->
  skipn (Z.to_nat k) (c_str s) =
  char_at s k :: skipn (Z.to_nat (k + 1)) (c_str s).
Proof.
  intros Hk. unfold char_at.
  replace (Z.to_nat (k + 1)) with (S (Z.to_nat k)) by lia.
  rewrite <- c_str_nth by (subst len; lia).
  apply skipn_nth_cons. rewrite c_str_length. subst len; lia.
Qed.

Lemma rest_end (k : Z) : len <= k -> skipn (Z.to_nat k) (c_str s) = [].
Proof.
  intros Hk. apply skipn_all2. rewrite c_str_length. subst len; lia.
Qed.

Lemma cur_step (k pk : Z) :
  0 <= pk <= k -> k < len ->
  firstn (Z.to_nat (k + 1 - pk)) (skipn (Z.to_nat pk) s) =
  firstn (Z.to_nat (k - pk)) (skipn (Z.to_nat pk) s) ++ [char_at s k].
Proof.
  intros Hpk Hk. pose proof (strlen_le s) as Hle.
  replace (Z.to_nat (k + 1 - pk)) with (S (Z.to_nat (k - pk))) by lia.
  rewrite (firstn_nth_snoc NUL) by (rewrite length_skipn; subst len; lia).
  rewrite nth_skipn. unfold char_at. do 3 f_equal. lia.
Qed.

Lemma suffix_at_starts_suffix (k : Z) :
  0 <= k < len ->
  suffix_at s len k = starts_suffix (skipn (Z.to_nat (k + 1)) (c_str s)).
Proof.
  intros Hk. unfold suffix_at.
  destruct (Z.ltb_spec k (len - 2)) as [Hlt|Hge].
  - rewrite (rest_step (k + 1)) by lia.
    rewrite (rest_step (k + 1 + 1)) by lia.
    replace (k + 1 + 1) with (k + 2) by lia.
    cbn [starts_suffix andb]. unfold is_visibility.
    now rewrite andb_assoc.
  - cbn [andb].
    assert (Hlen : (List.length (skipn (Z.to_nat (k + 1)) (c_str s)) <= 1)%nat)
      by (rewrite length_skipn, c_str_length; subst len; lia).
    destruct (skipn (Z.to_nat (k + 1)) (c_str s)) as [|u [|v l]];
      try reflexivity.
    cbn [List.length] in Hlen. lia.
Qed.

Lemma pushed_item (ov : bool) (k pk : Z) (v : ascii)
    (out : gmic_list ascii) :
  0 <= pk <= k -> k < len ->
  (if ov then move_to (CImg_filled 1 1 1 1 v) out
   else move_to (token_item s pk k) out) =
  out ++ [item ov (firstn (Z.to_nat (k - pk)) (skipn (Z.to_nat pk) s))
            (if ov then v else NUL)].
Proof.
  intros Hpk Hk. pose proof (strlen_le s) as Hle.
  destruct ov; unfold move_to; [reflexivity|].
  rewrite token_item_data by (subst len; lia). reflexivity.
Qed.

Lemma status2Items_loop_scan (ov : bool) :
  forall (fuel : nat) (k : Z) (is_inside : bool) (pk : Z)
         (out : gmic_list ascii),
    0 <= k <= len ->
    (is_inside = true -> 0 <= pk <= k) ->
    (Z.to_nat (len - k) <= fuel)%nat ->
    status2Items_loop fuel s len ov k is_inside pk out =
    Some (scan ov (skipn (Z.to_nat k) (c_str s)) is_inside
            (if is_inside
             then firstn (Z.to_nat (k - pk)) (skipn (Z.to_nat pk) s)
             else [])
            out).
Proof.
  induction fuel as [|fuel IH]; intros k ins pk out Hk Hpk Hf;
    cbn [status2Items_loop]; destruct (Z.ltb_spec k len) as [Hlt|Hge];
    try lia; try (rewrite rest_end by lia; reflexivity).
  rewrite (rest_step k) by lia.
  set (c := char_at s k).
  destruct (Ascii.eqb_spec c gmic_lbrace) as [Hl|Hl].
  - (* case gmic_lbrace *)
    rewrite Hl at 1. cbn [scan]. rewrite Ascii.eqb_refl.
    destruct ins; cbn [negb].
    + rewrite IH by (intros; lia).
      rewrite cur_step by lia. fold c. now rewrite Hl.
    + destruct (Z.leb_spec (len - 1) k) as [Hlast|Hmore].
      * rewrite rest_end by lia. reflexivity.
      * rewrite IH by (intros; lia).
        rewrite (rest_step (k + 1)) by lia.
        replace (Z.to_nat (k + 1 - (k + 1))) with O by lia.
        reflexivity.
  - destruct (Ascii.eqb_spec c gmic_rbrace) as [Hr|Hr].
    + (* case gmic_rbrace *)
      rewrite Hr at 1.
      destruct ins; cbn [negb]; [|reflexivity].
      rewrite scan_rbrace_inside.
      rewrite <- suffix_at_starts_suffix by lia.
      specialize (Hpk eq_refl).
      destruct (suffix_at s len k) eqn:Hsuf.
      * assert (Hk2 : k < len - 2).
        { unfold suffix_at in Hsuf.
          destruct (Z.ltb_spec k (len - 2)); [assumption|discriminate]. }
        rewrite IH by (intros; try discriminate; lia).
        rewrite pushed_item by lia.
        rewrite skipn_skipn.
        replace (2 + Z.to_nat (k + 1))%nat with (Z.to_nat (k + 2 + 1)) by lia.
        rewrite nth_skipn.
        replace (Z.to_nat (k + 1) + 1)%nat with (Z.to_nat (k + 2)) by lia.
        rewrite c_str_nth by (subst len; lia).
        fold (char_at s (k + 2)).
        destruct ov; reflexivity.
      * rewrite IH by (intros; try discriminate; lia).
        rewrite pushed_item by lia.
        destruct ov; reflexivity.
    + (* default *)
      cbn [scan].
      destruct (Ascii.eqb_spec c gmic_lbrace) as [|_]; [contradiction|].
      destruct (Ascii.eqb_spec c gmic_rbrace) as [|_]; [contradiction|].
      destruct ins; cbn [negb]; [|reflexivity].
      rewrite IH by (intros; lia).
      rewrite cur_step by lia. reflexivity.
Qed.

End LoopScan.

(** [status2Items] on a string whose length fits an [int]. *)
Lemma status2Items_scan (s : list ascii) (ov : bool) :
  Z.of_nat (strlen s) < 2 ^ 31 ->
  status2Items (Some s) ov =
  match c_str s with
  | c :: _ => if Ascii.eqb c gmic_lbrace then scan ov (c_str s) false [] []
              else []
  | [] => []
  end.
Proof.
  intros Hlen. unfold status2Items.
  rewrite int_of_size_t_small by assumption.
  rewrite status2Items_loop_scan by (try discriminate; lia).
  change (Z.to_nat 0) with O. cbn [skipn].
  unfold char_at, c_str. change (Z.to_nat 0) with O.
  destruct s as [|c s]; [reflexivity|].
  cbn [nth strlen].
  destruct (Ascii.eqb_spec c gmic_lbrace) as [->|Hc]; cbn [negb].
  - reflexivity.
  - destruct (Ascii.eqb c NUL); cbn [firstn]; [reflexivity|].
    destruct (Ascii.eqb_spec c gmic_lbrace); [contradiction|reflexivity].
Qed.

(** ** Decoding what was rendered *)

Lemma scan_body (ov : bool) (rest : list ascii) (out : gmic_list ascii) :
  forall body cur : list ascii,
    forallb (fun c => negb (Ascii.eqb c gmic_rbrace)) body = true ->
    scan ov (body ++ rest) true cur out = scan ov rest true (cur ++ body) out.
Proof.
  induction body as [|c body IH]; intros cur Hb.
  - now rewrite app_nil_r.
  - cbn [forallb] in Hb. apply andb_true_iff in Hb as [Hc Hb].
    cbn [app scan]. apply negb_true_iff in Hc. rewrite Hc.
    rewrite (IH (cur ++ [c]) Hb), <- app_assoc.
    destruct (Ascii.eqb c gmic_lbrace); reflexivity.
Qed.

Lemma wf_segment_body (sg : segment) :
  wf_segment sg = true ->
  forallb (fun c => negb (Ascii.eqb c gmic_rbrace)) (seg_body sg) = true
  /\ Forall (fun c => c <> NUL) (seg_body sg).
Proof.
  unfold wf_segment. intros H. apply andb_true_iff in H as [H _].
  rewrite forallb_forall in H. split.
  - apply forallb_forall. intros c Hc.
    specialize (H c Hc). now apply andb_true_iff in H as [H _].
  - apply Forall_forall. intros c Hc ->.
    specialize (H NUL Hc). now apply andb_true_iff in H as [_ H].
Qed.

Lemma wf_segment_visibility (sg : segment) (d : ascii) :
  wf_segment sg = true -> seg_visibility sg = Some d ->
  is_visibility d = true.
Proof.
  unfold wf_segment. intros H E. rewrite E in H.
  now apply andb_true_iff in H as [_ H].
Qed.

Lemma is_visibility_not_NUL (d : ascii) : is_visibility d = true -> d <> NUL.
Proof. intros H ->. discriminate H. Qed.

Lemma scan_segment (ov : bool) (sg : segment) (rest : list ascii)
    (out : gmic_list ascii) :
  wf_segment sg = true ->
  (seg_visibility sg = None -> starts_suffix rest = false) ->
  scan ov (render_segment sg ++ rest) false [] out =
  scan ov rest false [] (out ++ [segment_item ov sg]).
Proof.
  intros Hwf Hrest.
  destruct (wf_segment_body sg Hwf) as [Hbody _].
  unfold render_segment, segment_item.
  rewrite <- app_comm_cons, <- app_assoc, <- app_comm_cons.
  assert (Hin : scan ov
            (seg_body sg ++ gmic_rbrace :: render_suffix (seg_visibility sg) ++ rest)
            true [] out =
          scan ov rest false []
            (out ++ [item ov (seg_body sg)
                       match seg_visibility sg with Some d => d | None => NUL end])).
  { rewrite scan_body by assumption. cbn [app].
    rewrite scan_rbrace_inside.
    destruct (seg_visibility sg) as [d|] eqn:Ev; cbn [render_suffix app].
    - cbn [starts_suffix]. rewrite (wf_segment_visibility sg d Hwf Ev).
      reflexivity.
    - now rewrite (Hrest eq_refl). }
  cbn [scan]. rewrite Ascii.eqb_refl.
  destruct (seg_body sg ++ gmic_rbrace :: render_suffix (seg_visibility sg) ++ rest)
    as [|c l] eqn:E; [|exact Hin].
  destruct (seg_body sg); discriminate E.
Qed.

Lemma starts_suffix_render (segs : list segment) (rest : list ascii) :
  segs <> [] -> starts_suffix (render segs ++ rest) = false.
Proof.
  destruct segs as [|sg segs]; [congruence|]. intros _.
  cbn [render flat_map]. unfold render_segment.
  rewrite <- !app_comm_cons.
  match goal with
  | |- starts_suffix (_ :: ?l) = _ => destruct l; reflexivity
  end.
Qed.

Lemma scan_render (ov : bool) (rest : list ascii) :
  forall (segs : list segment) (out : gmic_list ascii),
    forallb wf_segment segs = true ->
    (suffix_pending segs = true -> starts_suffix rest = false) ->
    scan ov (render segs ++ rest) false [] out =
    scan ov rest false [] (out ++ map (segment_item ov) segs).
Proof.
  induction segs as [|sg segs IH]; intros out Hwf Hrest.
  - cbn [render flat_map map app]. now rewrite app_nil_r.
  - cbn [forallb] in Hwf. apply andb_true_iff in Hwf as [Hsg Hwf].
    cbn [render flat_map map]. fold (render segs).
    rewrite <- app_assoc.
    rewrite scan_segment; [|assumption|].
    + rewrite IH; [rewrite <- app_assoc; reflexivity | assumption | ].
      destruct segs as [|sg' segs]; [discriminate|]. exact Hrest.
    + intros Ev. destruct segs as [|sg' segs].
      * apply Hrest. cbn [suffix_pending]. now rewrite Ev.
      * apply starts_suffix_render. discriminate.
Qed.

Lemma render_no_NUL (segs : list segment) :
  forallb wf_segment segs = true -> Forall (fun c => c <> NUL) (render segs).
Proof.
  induction segs as [|sg segs IH]; intros Hwf; [constructor|].
  cbn [forallb] in Hwf. apply andb_true_iff in Hwf as [Hsg Hwf].
  cbn [render flat_map]. apply Forall_app. split; [|now apply IH].
  destruct (wf_segment_body sg Hsg) as [_ Hbody].
  unfold render_segment. constructor; [discriminate|].
  apply Forall_app. split; [assumption|].
  constructor; [discriminate|].
  destruct (seg_visibility sg) as [d|] eqn:Ev; cbn [render_suffix];
    [|constructor].
  constructor; [discriminate|]. constructor; [|constructor].
  apply is_visibility_not_NUL. exact (wf_segment_visibility sg d Hsg Ev).
Qed.

Lemma render_head (sg : segment) (segs : list segment) (rest : list ascii) :
  exists l, render (sg :: segs) ++ rest = gmic_lbrace :: l.
Proof.
  cbn [render flat_map]. unfold render_segment.
  rewrite <- !app_comm_cons. eauto.
Qed.

Lemma starts_suffix_c_str (rest : list ascii) :
  starts_suffix (c_str rest) = starts_suffix rest.
Proof.
  destruct rest as [|u [|v l]]; unfold c_str; cbn [strlen].
  - reflexivity.
  - destruct (Ascii.eqb u NUL); reflexivity.
  - destruct (Ascii.eqb_spec u NUL) as [->|Hu]; [reflexivity|].
    destruct (Ascii.eqb_spec v NUL) as [->|Hv]; cbn [firstn starts_suffix].
    + now rewrite andb_false_r.
    + reflexivity.
Qed.

Lemma forallb_firstn {T : Type} (p : T -> bool) (n : nat) (l : list T) :
  forallb p l = true -> forallb p (firstn n l) = true.
Proof.
  revert n. induction l as [|x l IH]; intros [|n] H; try reflexivity.
  cbn [forallb firstn] in *. apply andb_true_iff in H as [Hx Hl].
  now rewrite Hx, IH.
Qed.

(** The decoder's answer on rendered segments followed by [rest]. *)
Lemma status2Items_render (segs : list segment) (rest : list ascii)
    (ov : bool) :
  forallb wf_segment segs = true ->
  Z.of_nat (strlen (render segs ++ rest)) < 2 ^ 31 ->
  (suffix_pending segs = true -> starts_suffix rest = false) ->
  status2Items (Some (render segs ++ rest)) ov =
  match segs, c_str rest with
  | [], c :: _ => if Ascii.eqb c gmic_lbrace
                  then scan ov (c_str rest) false [] [] else []
  | [], [] => []
  | _ :: _, _ => scan ov (c_str rest) false [] (map (segment_item ov) segs)
  end.
Proof.
  intros Hwf Hlen Hrest. rewrite status2Items_scan by assumption.
  rewrite c_str_app_no_NUL by now apply render_no_NUL.
  destruct segs as [|sg segs]; [reflexivity|].
  destruct (render_head sg segs (c_str rest)) as [l El].
  rewrite El at 1. rewrite Ascii.eqb_refl.
  rewrite scan_render; [reflexivity | assumption | ].
  now rewrite starts_suffix_c_str.
Qed.

Lemma status2Items_decodes (segs : list segment) (ov : bool) :
  forallb wf_segment segs = true ->
  Z.of_nat (strlen (render segs)) < 2 ^ 31 ->
  status2Items (Some (render segs)) ov = map (segment_item ov) segs.
Proof.
  intros Hwf Hlen. rewrite <- (app_nil_r (render segs)) in Hlen |- *.
  rewrite status2Items_render by (assumption || reflexivity).
  destruct segs; reflexivity.
Qed.

(** X11: the loop does not look at [is_inside] once it is over: in a
    string of fewer than 2^31 characters, a segment that is opened after
    others and never closed, with at least one character after its brace,
    leaves the items of the others. *)
Lemma status2Items_unterminated_after (sg : segment) (segs : list segment)
    (c : ascii) (body : list ascii) (ov : bool) :
  forallb wf_segment (sg :: segs) = true ->
  Z.of_nat (strlen (render (sg :: segs) ++ gmic_lbrace :: c :: body)) < 2 ^ 31 ->
  c <> NUL ->
  forallb (fun x => negb (Ascii.eqb x gmic_rbrace)) (c :: body) = true ->
  status2Items (Some (render (sg :: segs) ++ gmic_lbrace :: c :: body)) ov =
  map (segment_item ov) (sg :: segs).
Proof.
  intros Hwf Hlen Hc Hb.
  rewrite status2Items_render by (assumption || reflexivity).
  rewrite c_str_cons by discriminate.
  cbn [scan]. rewrite Ascii.eqb_refl.
  apply (forallb_firstn _ (strlen (c :: body))) in Hb.
  fold (c_str (c :: body)) in Hb.
  rewrite c_str_cons in Hb |- * by assumption.
  rewrite <- (app_nil_r (c :: c_str body)).
  now rewrite scan_body.
Qed.

(** ** What the [try] block leaves alone *)

Lemma keeps_ret {A X : Type} (f : FilterThread -> X) (a : A) :
  keeps f (ret a).
Proof. intros t. reflexivity. Qed.

Lemma keeps_bind {A B X : Type} (f : FilterThread -> X) (m : Try A)
    (g : A -> Try B) :
  keeps f m -> (forall a, keeps f (g a)) -> keeps f (bind m g).
Proof.
  intros Hm Hg t. unfold bind. specialize (Hm t).
  destruct (m t) as [[a|e] t']; cbn [snd] in *; [|assumption].
  now rewrite Hg.
Qed.

Lemma keeps_call {A X : Type} (f : FilterThread -> X)
    (op : cells -> thrown A * cells) :
  (forall c t, f (store_cells c t) = f t) -> keeps f (call op).
Proof.
  intros Hf t. unfold call. destruct (op (the_cells t)) as [r c].
  apply Hf.
Qed.

Lemma keeps_call_on_images {A X : Type} (f : FilterThread -> X)
    (op : gmic_list float -> gmic_list ascii -> cells ->
          thrown A * (gmic_list float * gmic_list ascii) * cells) :
  (forall c t, f (store_cells c t) = f t) ->
  (forall v t, f (set_images v t) = f t) ->
  (forall v t, f (set_imageNames v t) = f t) ->
  keeps f (call_on_images op).
Proof.
  intros Hc Hi Hn t. unfold call_on_images.
  destruct (op (_images t) (_imageNames t) (the_cells t)) as [[r [imgs names]] c].
  cbn [snd]. now rewrite Hc, Hn, Hi.
Qed.

Lemma invoke_keeps {X : Type} (f : FilterThread -> X) (E : Engine) (H : Host)
    (fullCommandLine : QString) :
  (forall c t, f (store_cells c t) = f t) ->
  (forall v t, f (set_images v t) = f t) ->
  (forall v t, f (set_imageNames v t) = f t) ->
  keeps f (invoke E H fullCommandLine).
Proof.
  intros Hc Hi Hn t. unfold invoke.
  apply keeps_bind; [now apply keeps_call|]. intros g1.
  apply keeps_bind.
  { destruct (negb (is_empty (PersistentMemory_image H)));
      [|apply keeps_ret].
    destruct (Ascii.eqb _ _); now apply keeps_call. }
  intros g2.
  apply keeps_bind; [now apply keeps_call|]. intros g3.
  apply keeps_bind; [now apply keeps_call|]. intros g4.
  now apply keeps_call_on_images.
Qed.

Lemma run_prologue_abort (H : Host) (b : bool) (t : FilterThread) :
  run_prologue H (set_gmicAbort b t) = run_prologue H t.
Proof. reflexivity. Qed.

Lemma float_zero_not_minus_one : 0%float <> (-1)%float.
Proof.
  intros E.
  assert (Hb : PrimFloat.eqb 0%float 0%float = PrimFloat.eqb 0%float (-1)%float)
    by (rewrite <- E; reflexivity).
  vm_compute in Hb. discriminate Hb.
Qed.

(** * The statements of the specification *)

(** C1, as the code has it: for ["{foo}{bar_1}"] in visibility mode the
    result has exactly two single-character entries and both hold
    visibility 0 (the NUL character, [Unspecified] for
    [status2Visibilities]), the ["_1"] inside the braces being token text.
    The suffix is read after the closing brace: ["{foo}{bar}_1"] gives
    visibility 0 and then ['1'], and ["{foo}{bar}_V"] is taken for V among
    ['0'], ['1'], ['2'] only. *)
Theorem status2Items_visibility_example :
  status2Items (bytes "{foo}{bar_1}") true =
    [visibility_item NUL; visibility_item NUL]
  /\ (forall Unspecified : Z,
        status2Visibilities Unspecified "{foo}{bar_1}" =
        [Unspecified; Unspecified])
  /\ status2Items (bytes "{foo}{bar}_1") true =
       [visibility_item NUL; visibility_item "1"%char]
  /\ (forall Unspecified : Z,
        status2Visibilities Unspecified "{foo}{bar}_1" = [Unspecified; 1])
  /\ (forall v : ascii,
        status2Items (Some (list_ascii_of_string "{foo}{bar}_" ++ [v])) true =
        if is_visibility v
        then [visibility_item NUL; visibility_item v]
        else []).
Proof.
  repeat split; try (intros U; reflexivity).
  intros [[] [] [] [] [] [] [] []]; vm_compute; reflexivity.
Qed.

(** C1 as stated fails: the second entry for ["{foo}{bar_1}"] is not
    visibility 1. *)
Lemma status2Items_visibility_example_not_1 :
  status2Items (bytes "{foo}{bar_1}") true =
    [visibility_item NUL; visibility_item NUL]
  /\ nth 1 (status2Items (bytes "{foo}{bar_1}") true) CImg_empty
     <> visibility_item "1"%char
  /\ (forall Unspecified : Z,
        status2Visibilities Unspecified "{foo}{bar_1}" <> [0; 1]).
Proof.
  split; [reflexivity|]. split; [discriminate|].
  intros U HU. vm_compute in HU.
  assert (U = 0) by congruence. assert (U = 1) by congruence. lia.
Qed.


(** C3, as the code has it, for strings of fewer than 2^31 characters
    (the length is cast to [int]): when the segments decoded so far are
    followed by a closing brace, by a character that is neither a brace nor the
    start of the last segment's [_V] suffix, or by an opening brace that is
    the last character, [status2Items] returns the empty list in both
    modes, however many segments came before; so it does for an opening
    brace that is never closed when no segment came before. *)
Theorem status2Items_violation_empty (segs : list segment)
    (rest : list ascii) (output_visibility : bool) :
  forallb wf_segment segs = true ->
  Z.of_nat (strlen (render segs ++ rest)) < 2 ^ 31 ->
  violation segs rest = true ->
  status2Items (Some (render segs ++ rest)) output_visibility = [].
Proof.
  intros Hwf Hlen Hv.
  destruct rest as [|c rest']; [discriminate Hv|].
  cbn [violation] in Hv.
  destruct (Ascii.eqb_spec c gmic_rbrace) as [->|Hr].
  - (* a closing brace outside a segment *)
    rewrite status2Items_render; try assumption.
    + rewrite c_str_cons by discriminate.
      destruct segs; reflexivity.
    + intros _. destruct rest'; reflexivity.
  - destruct (Ascii.eqb_spec c gmic_lbrace) as [->|Hl].
    + destruct rest' as [|c' rest'].
      * (* an opening brace as the last character *)
        rewrite status2Items_render by (assumption || reflexivity).
        destruct segs; reflexivity.
      * (* an opening brace never closed, nothing before it *)
        destruct segs as [|sg segs]; [|discriminate Hv].
        cbn [render flat_map app] in Hlen |- *.
        rewrite status2Items_scan by assumption.
        rewrite c_str_cons by discriminate.
        rewrite Ascii.eqb_refl. cbn [scan]. rewrite Ascii.eqb_refl.
        apply (forallb_firstn _ (strlen (c' :: rest'))) in Hv.
        fold (c_str (c' :: rest')) in Hv.
        destruct (c_str (c' :: rest')) as [|x l]; [reflexivity|].
        rewrite <- (app_nil_r (x :: l)).
        now rewrite scan_body.
    + (* a stray character outside a segment *)
      apply andb_true_iff in Hv as [Hn Hs].
      apply negb_true_iff in Hn, Hs.
      rewrite status2Items_render; try assumption.
      * rewrite c_str_cons by (intros ->; discriminate Hn).
        cbn [scan].
        destruct (Ascii.eqb_spec c gmic_lbrace); [contradiction|].
        destruct (Ascii.eqb_spec c gmic_rbrace); [contradiction|].
        destruct segs; reflexivity.
      * intros Hp. now rewrite Hp in Hs.
Qed.

(** C3 at ["foo}"], at ["{foo"], and after two segments at
    ["{a}{b}_2x"]. *)
Lemma status2Items_violation_empty_witness :
  ((forallb wf_segment [] = true
    /\ Z.of_nat (strlen (render [] ++ list_ascii_of_string "foo}")) < 2 ^ 31
    /\ violation [] (list_ascii_of_string "foo}") = true)
   /\ status2Items (bytes "foo}") false = [])
  /\ ((forallb wf_segment [] = true
       /\ Z.of_nat (strlen (render [] ++ list_ascii_of_string "{foo")) < 2 ^ 31
       /\ violation [] (list_ascii_of_string "{foo") = true)
      /\ status2Items (bytes "{foo") true = [])
  /\ ((forallb wf_segment [seg_a; seg_b2] = true
       /\ Z.of_nat (strlen (render [seg_a; seg_b2] ++ list_ascii_of_string "x"))
          < 2 ^ 31
       /\ violation [seg_a; seg_b2] (list_ascii_of_string "x") = true)
      /\ status2Items (bytes "{a}{b}_2x") true = []).
Proof.
  assert (H1 : forallb wf_segment [] = true
    /\ Z.of_nat (strlen (render [] ++ list_ascii_of_string "foo}")) < 2 ^ 31
    /\ violation [] (list_ascii_of_string "foo}") = true)
    by (split; [reflexivity | split; [vm_compute; reflexivity | reflexivity]]).
  assert (H2 : forallb wf_segment [] = true
    /\ Z.of_nat (strlen (render [] ++ list_ascii_of_string "{foo")) < 2 ^ 31
    /\ violation [] (list_ascii_of_string "{foo") = true)
    by (split; [reflexivity | split; [vm_compute; reflexivity | reflexivity]]).
  assert (H3 : forallb wf_segment [seg_a; seg_b2] = true
    /\ Z.of_nat (strlen (render [seg_a; seg_b2] ++ list_ascii_of_string "x"))
       < 2 ^ 31
    /\ violation [seg_a; seg_b2] (list_ascii_of_string "x") = true)
    by (split; [reflexivity | split; [vm_compute; reflexivity | reflexivity]]).
  split; [|split]; (split; [assumption|]).
  - exact (status2Items_violation_empty [] (list_ascii_of_string "foo}") false
             (proj1 H1) (proj1 (proj2 H1)) (proj2 (proj2 H1))).
  - exact (status2Items_violation_empty [] (list_ascii_of_string "{foo") true
             (proj1 H2) (proj1 (proj2 H2)) (proj2 (proj2 H2))).
  - exact (status2Items_violation_empty [seg_a; seg_b2]
             (list_ascii_of_string "x") true
             (proj1 H3) (proj1 (proj2 H3)) (proj2 (proj2 H3))).
Defined.

(** C3 as stated fails twice.  ["{a}{foo"] ends inside a segment and
    ["{a}_1"] has characters outside a segment, yet both decode to a list
    that is not empty. *)
Lemma status2Items_violation_not_empty :
  (spec_violation false (list_ascii_of_string "{a}{foo") = true
   /\ status2Items (bytes "{a}{foo") false = [string_item "a"]
   /\ status2Items (bytes "{a}{foo") true = [visibility_item NUL])
  /\ (spec_violation false (list_ascii_of_string "{a}_1") = true
      /\ status2Items (bytes "{a}_1") false = [string_item "a"]
      /\ status2Items (bytes "{a}_1") true = [visibility_item "1"%char]).
Proof. repeat split. Qed.

(** C4: if the interpreter invocation of [run] throws [e], then after
    [run] the thread has failed, its error message is the text of [e], and
    its image list and its name list are empty. *)
Theorem run_throws (E : Engine) (H : Host) (t : FilterThread)
    (e : gmic_exception) :
  fst (invocation E H t) = Thrown e ->
  failed (run E H t) = true
  /\ errorMessage (run E H t) = QString_of_chars (what e)
  /\ images (run E H t) = []
  /\ imageNames (run E H t) = [].
Proof.
  unfold invocation, run, run_try, bind.
  destruct (run_prologue H t) as [cmd t0].
  destruct (invoke E H cmd t0) as [[g|e'] t1]; cbn [fst]; intros He;
    [discriminate He|].
  injection He as ->. repeat split.
Qed.

Lemma run_throws_witness :
  fst (invocation sample_engine sample_host (sample_thread "blur" "boom")) =
    Thrown {| what := sample_error |}
  /\ failed (run sample_engine sample_host (sample_thread "blur" "boom")) = true
  /\ errorMessage (run sample_engine sample_host (sample_thread "blur" "boom")) =
       "Unknown command 'boom'"
  /\ images (run sample_engine sample_host (sample_thread "blur" "boom")) = []
  /\ imageNames (run sample_engine sample_host (sample_thread "blur" "boom")) = [].
Proof.
  split; [reflexivity|].
  apply (run_throws sample_engine sample_host (sample_thread "blur" "boom")
           {| what := sample_error |}).
  reflexivity.
Defined.

(** C5: if the interpreter invocation of [run] returns the instance
    [gmicInstance], then after [run] the thread has not failed, its error
    message is empty, its status string is the interpreter's status and its
    persistent-memory output is the interpreter's variable [_persistent]. *)
Theorem run_returns (E : Engine) (H : Host) (t : FilterThread)
    (gmicInstance : gmic E) :
  fst (invocation E H t) = Returned gmicInstance ->
  failed (run E H t) = false
  /\ errorMessage (run E H t) = ""
  /\ _gmicStatus (run E H t) =
       QString_of_chars (_data (gmic_status E gmicInstance))
  /\ persistentMemoryOutput (run E H t) =
       get_variable E gmicInstance (list_ascii_of_string "_persistent").
Proof.
  unfold invocation, run, run_try, bind, failed, errorMessage.
  pose proof (fun cmd => invoke_keeps _failed E H cmd
                (fun _ _ => eq_refl) (fun _ _ => eq_refl) (fun _ _ => eq_refl))
    as Hf.
  pose proof (fun cmd => invoke_keeps _errorMessage E H cmd
                (fun _ _ => eq_refl) (fun _ _ => eq_refl) (fun _ _ => eq_refl))
    as He.
  unfold run_prologue.
  match goal with
  | |- context [invoke E H ?cmd ?t0] =>
    specialize (Hf cmd t0); specialize (He cmd t0);
      destruct (invoke E H cmd t0) as [[g|e'] t1]
  end; cbn [fst snd] in *; intros Hg; [|discriminate Hg].
  injection Hg as ->. cbn. repeat split; assumption.
Qed.

Lemma run_returns_witness :
  fst (invocation sample_engine sample_host (sample_thread "blur" "1,2")) =
    Returned (Some (list_ascii_of_string "v - blur 1,2"))
  /\ failed (run sample_engine sample_host (sample_thread "blur" "1,2")) = false
  /\ errorMessage (run sample_engine sample_host (sample_thread "blur" "1,2")) = ""
  /\ _gmicStatus (run sample_engine sample_host (sample_thread "blur" "1,2")) =
       "{12}{7}_2"
  /\ persistentMemoryOutput
       (run sample_engine sample_host (sample_thread "blur" "1,2")) =
     sample_persistent.
Proof.
  split; [reflexivity|].
  apply (run_returns sample_engine sample_host (sample_thread "blur" "1,2")
           (Some (list_ascii_of_string "v - blur 1,2"))).
  reflexivity.
Defined.

(** C6: for every string that does not start with an opening brace, the
    empty string among them, [status2Items] returns the empty list in both
    modes. *)
Theorem status2Items_no_lbrace_first (s : list ascii)
    (output_visibility : bool) :
  hd_error s <> Some gmic_lbrace ->
  status2Items (Some s) output_visibility = [].
Proof.
  intros Hs. unfold status2Items, char_at. change (Z.to_nat 0) with O.
  destruct s as [|c s]; [reflexivity|]. cbn [nth].
  destruct (Ascii.eqb_spec c gmic_lbrace) as [->|_]; [|reflexivity].
  now contradiction Hs.
Qed.

Lemma status2Items_no_lbrace_first_witness :
  (hd_error (list_ascii_of_string "foo{a}") <> Some gmic_lbrace
   /\ status2Items (bytes "foo{a}") false = []
   /\ status2Items (bytes "foo{a}") true = [])
  /\ (hd_error (list_ascii_of_string "") <> Some gmic_lbrace
      /\ status2Items (bytes "") false = []
      /\ status2Items (bytes "") true = []).
Proof.
  split; (split; [discriminate|]); split.
  - apply (status2Items_no_lbrace_first (list_ascii_of_string "foo{a}") false).
    discriminate.
  - apply (status2Items_no_lbrace_first (list_ascii_of_string "foo{a}") true).
    discriminate.
  - apply (status2Items_no_lbrace_first (list_ascii_of_string "") false).
    discriminate.
  - apply (status2Items_no_lbrace_first (list_ascii_of_string "") true).
    discriminate.
Defined.

(** C7, as the code has it: on a freshly constructed [FilterThread]
    [progress()] yields 0; -1 is what [run] stores, with a cleared abort
    flag, just before it builds the interpreter, which so starts from
    progress -1. *)
Theorem progress_before_and_at_start :
  (forall command arguments environment : QString,
      progress (FilterThread_ctor command arguments environment) = 0%float)
  /\ (forall (H : Host) (t : FilterThread),
        progress (snd (run_prologue H t)) = (-1)%float
        /\ the_cells (snd (run_prologue H t)) =
           {| progress_cell := (-1)%float; abort_cell := false |}).
Proof. split; [reflexivity|]. intros H t. split; reflexivity. Qed.

(** C7 as stated fails: before [run], [progress()] is 0 and not -1. *)
Lemma progress_fresh_not_minus_one :
  progress (FilterThread_ctor "blur" "1,2" "") = 0%float
  /\ progress (FilterThread_ctor "blur" "1,2" "") <> (-1)%float.
Proof. split; [reflexivity | exact float_zero_not_minus_one]. Qed.

(** C8: [abortGmic()] sets the abort flag and nothing else, so it neither
    marks the thread failed nor records an error; and a flag set before
    [run] changes nothing in what [run] does: the flag goes to the
    interpreter only, in the cell [run] hands over. *)
Theorem abortGmic_is_advisory (E : Engine) (H : Host) (t : FilterThread) :
  aborted (abortGmic t) = true
  /\ failed (abortGmic t) = failed t
  /\ errorMessage (abortGmic t) = errorMessage t
  /\ progress (abortGmic t) = progress t
  /\ images (abortGmic t) = images t
  /\ imageNames (abortGmic t) = imageNames t
  /\ run E H (abortGmic t) = run E H t.
Proof.
  do 6 (split; [reflexivity|]).
  unfold run, abortGmic. now rewrite run_prologue_abort.
Qed.

(** C9: for every input, token mode and visibility mode give lists of
    the same length. *)
Theorem status2Items_same_length (status : option (list ascii)) :
  List.length (status2Items status false) =
  List.length (status2Items status true).
Proof.
  destruct status as [s|]; [|reflexivity]. unfold status2Items.
  destruct (negb (Ascii.eqb (char_at s 0) gmic_lbrace)); [reflexivity|].
  pose proof (status2Items_loop_same_count s (int_of_size_t (strlen s))
                (Z.to_nat (int_of_size_t (strlen s))) 0 false 0 [] []
                eq_refl) as Hc.
  destruct (status2Items_loop _ s _ true 0 false 0 []) as [o1|];
    destruct (status2Items_loop _ s _ false 0 false 0 []) as [o2|];
    cbn [option_map] in Hc; congruence.
Qed.

(** C10: an opening brace that is the last character, met outside a
    segment, makes [status2Items] return the empty list, whatever segments
    were decoded before it: the segments [segs] alone decode to one item
    each, and followed by a last opening brace to nothing. *)
Theorem status2Items_lbrace_last (segs : list segment)
    (output_visibility : bool) :
  forallb wf_segment segs = true ->
  Z.of_nat (strlen (render segs ++ [gmic_lbrace])) < 2 ^ 31 ->
  status2Items (Some (render segs)) output_visibility =
    map (segment_item output_visibility) segs
  /\ status2Items (Some (render segs ++ [gmic_lbrace])) output_visibility = [].
Proof.
  intros Hwf Hlen. split.
  - apply status2Items_decodes; [assumption|].
    pose proof (render_no_NUL segs Hwf) as Hn.
    rewrite (strlen_app_no_NUL _ _ Hn) in Hlen.
    rewrite <- (app_nil_r (render segs)), (strlen_app_no_NUL _ _ Hn).
    cbn [strlen] in *. lia.
  - rewrite status2Items_render by (assumption || reflexivity).
    destruct segs; reflexivity.
Qed.

Lemma status2Items_lbrace_last_witness :
  (forallb wf_segment [seg_a] = true
   /\ Z.of_nat (strlen (render [seg_a] ++ [gmic_lbrace])) < 2 ^ 31)
  /\ status2Items (bytes "{a}") false = [string_item "a"]
  /\ status2Items (bytes "{a}{") false = [].
Proof.
  assert (Hh : forallb wf_segment [seg_a] = true
    /\ Z.of_nat (strlen (render [seg_a] ++ [gmic_lbrace])) < 2 ^ 31)
    by (split; [reflexivity | vm_compute; reflexivity]).
  split; [assumption|].
  exact (status2Items_lbrace_last [seg_a] false (proj1 Hh) (proj2 Hh)).
Defined.

(** * Further properties of the decoders *)

Lemma is_visibility_cases (v : ascii) :
  is_visibility v = true ->
  v = "0"%char \/ v = "1"%char \/ v = "2"%char.
Proof.
  destruct v as [[] [] [] [] [] [] [] []]; vm_compute; intros Hv;
    try discriminate Hv; auto.
Qed.

Lemma suffix_at_visibility (s : list ascii) (len k : Z) :
  suffix_at s len k = true -> is_visibility (char_at s (k + 2)) = true.
Proof.
  unfold suffix_at, is_visibility. intros Hs.
  apply andb_true_iff in Hs as [Hs H2]. apply andb_true_iff in Hs as [_ H0].
  now rewrite H0, H2.
Qed.

Lemma suffix_at_bound (s : list ascii) (len k : Z) :
  suffix_at s len k = true -> k < len - 2.
Proof.
  unfold suffix_at. destruct (Z.ltb_spec k (len - 2)); [trivial|discriminate].
Qed.

Lemma status2Items_loop_visibility_entries (s : list ascii) (len : Z) :
  forall (fuel : nat) (k : Z) (is_inside : bool) (pk : Z)
         (out r : gmic_list ascii),
    Forall (fun img => In img visibility_entries) out ->
    status2Items_loop fuel s len true k is_inside pk out = Some r ->
    Forall (fun img => In img visibility_entries) r.
Proof.
  induction fuel as [|fuel IH]; intros k ins pk out r Hout Hr;
    cbn [status2Items_loop] in Hr; destruct (k <? len);
    try discriminate Hr; try (injection Hr as <-; assumption).
  destruct (Ascii.eqb (char_at s k) gmic_lbrace).
  - destruct ins; cbn [negb] in Hr; [now apply (IH _ _ _ _ _ Hout Hr)|].
    destruct (len - 1 <=? k); [injection Hr as <-; constructor|].
    now apply (IH _ _ _ _ _ Hout Hr).
  - destruct (Ascii.eqb (char_at s k) gmic_rbrace).
    + destruct ins; cbn [negb] in Hr; [|injection Hr as <-; constructor].
      refine (IH _ _ _ _ _ _ Hr). unfold move_to.
      apply Forall_app. split; [assumption|].
      constructor; [|constructor].
      change (CImg_filled 1 1 1 1 ?v) with (visibility_item v).
      destruct (suffix_at s len k) eqn:Hs; [|now left].
      apply suffix_at_visibility, is_visibility_cases in Hs.
      destruct Hs as [-> | [-> | ->]]; cbn; auto.
    + destruct ins; cbn [negb] in Hr; [|injection Hr as <-; constructor].
      now apply (IH _ _ _ _ _ Hout Hr).
Qed.

(** X1: in visibility mode every entry, for every input, is a single
    character among NUL, ['0'], ['1'], ['2']; so [status2Visibilities] only
    ever gives [Unspecified], 0, 1 or 2. *)
Theorem status2Visibilities_range (Unspecified : Z) (status : QString) :
  Forall (fun img => In img visibility_entries)
         (status2Items (constData (toLocal8Bit status)) true)
  /\ Forall (fun v => In v [Unspecified; 0; 1; 2])
            (status2Visibilities Unspecified status).
Proof.
  assert (He : Forall (fun img => In img visibility_entries)
                 (status2Items (constData (toLocal8Bit status)) true)).
  { unfold status2Items, constData.
    destruct (negb _); [constructor|].
    destruct (status2Items_loop _ _ _ _ _ _ _ _) as [r|] eqn:Hr;
      [|constructor].
    eapply status2Items_loop_visibility_entries; [|exact Hr]. constructor. }
  split; [exact He|].
  unfold status2Visibilities. apply Forall_map.
  eapply Forall_impl; [|exact He].
  intros img Hin. cbn in Hin.
  destruct Hin as [<- | [<- | [<- | [<- | []]]]]; cbn; auto.
Qed.

Lemma int_of_size_t_le (n : nat) : int_of_size_t n <= Z.of_nat n.
Proof.
  unfold int_of_size_t.
  pose proof (Z.mod_le (Z.of_nat n + 2 ^ 31) (2 ^ 32)). lia.
Qed.

Lemma length_list_ascii_of_string (s : string) :
  List.length (list_ascii_of_string s) = String.length s.
Proof. induction s as [|c s IH]; cbn; [reflexivity | now rewrite IH]. Qed.

(** Every item costs the loop an opening and a closing brace. *)
Lemma status2Items_loop_count (s : list ascii) (len : Z) (ov : bool) :
  forall (fuel : nat) (k : Z) (is_inside : bool) (pk : Z)
         (out r : gmic_list ascii),
    2 * Z.of_nat (List.length out) + (if is_inside then 1 else 0) <= k ->
    status2Items_loop fuel s len ov k is_inside pk out = Some r ->
    2 * Z.of_nat (List.length r) <= Z.max k len.
Proof.
  induction fuel as [|fuel IH]; intros k ins pk out r Hout Hr;
    cbn [status2Items_loop] in Hr; destruct (Z.ltb_spec k len) as [Hlt|Hge];
    try discriminate Hr; try (injection Hr as <-; destruct ins; lia).
  destruct (Ascii.eqb (char_at s k) gmic_lbrace).
  - destruct ins; cbn [negb] in Hr.
    + apply IH in Hr; lia.
    + destruct (len - 1 <=? k); [injection Hr as <-; cbn; lia|].
      apply IH in Hr; lia.
  - destruct (Ascii.eqb (char_at s k) gmic_rbrace).
    + destruct ins; cbn [negb] in Hr; [|injection Hr as <-; cbn; lia].
      apply IH in Hr.
      * destruct (suffix_at s len k) eqn:Hs; [|lia].
        apply suffix_at_bound in Hs. lia.
      * destruct ov; unfold move_to; rewrite length_app; cbn [List.length];
          destruct (suffix_at s len k); lia.
    + destruct ins; cbn [negb] in Hr; [|injection Hr as <-; cbn; lia].
      apply IH in Hr; lia.
Qed.

(** X2: for every input and in both modes, twice the number of decoded
    items is at most the length of the string; the two public decoders
    obey the same bound. *)
Theorem status2Items_count_bound (Unspecified : Z) (status : QString)
    (output_visibility : bool) :
  2 * Z.of_nat (List.length
                  (status2Items (constData (toLocal8Bit status))
                                output_visibility))
    <= Z.of_nat (strlen (toLocal8Bit status))
  /\ 2 * Z.of_nat (List.length (status2StringList status))
       <= Z.of_nat (String.length status)
  /\ 2 * Z.of_nat (List.length (status2Visibilities Unspecified status))
       <= Z.of_nat (String.length status).
Proof.
  assert (Hb : forall ov,
             2 * Z.of_nat (List.length
                             (status2Items (constData (toLocal8Bit status)) ov))
             <= Z.of_nat (strlen (toLocal8Bit status))).
  { intros ov. unfold status2Items, constData.
    destruct (negb _); [cbn [List.length]; lia|].
    destruct (status2Items_loop _ _ _ _ _ _ _ _) as [r|] eqn:Hr;
      [|cbn [List.length]; lia].
    apply status2Items_loop_count in Hr; [|cbn [List.length]; lia].
    pose proof (int_of_size_t_le (strlen (toLocal8Bit status))). lia. }
  assert (Hs : Z.of_nat (strlen (toLocal8Bit status))
               <= Z.of_nat (String.length status)).
  { pose proof (strlen_le (toLocal8Bit status)) as Hle.
    unfold toLocal8Bit in Hle at 2.
    rewrite length_list_ascii_of_string in Hle. lia. }
  split; [apply Hb|].
  unfold status2StringList, status2Visibilities. rewrite !length_map.
  pose proof (Hb false). pose proof (Hb true). lia.
Qed.

Lemma c_str_no_NUL (s : list ascii) : Forall (fun c => c <> NUL) (c_str s).
Proof.
  induction s as [|c s IH]; [constructor|].
  unfold c_str. cbn [strlen].
  destruct (Ascii.eqb_spec c NUL) as [|Hc]; [constructor|].
  cbn [firstn]. constructor; assumption.
Qed.

Lemma token_entry_item (cur : list ascii) (v : ascii) :
  Forall (fun c => c <> gmic_rbrace /\ c <> NUL) cur ->
  token_entry (item false cur v).
Proof. intros Hcur. exists cur. split; [reflexivity | assumption]. Qed.

Lemma scan_token_entries :
  forall (n : nat) (rest : list ascii) (is_inside : bool)
         (cur : list ascii) (out : gmic_list ascii),
    (List.length rest <= n)%nat ->
    Forall (fun c => c <> NUL) rest ->
    Forall (fun c => c <> gmic_rbrace /\ c <> NUL) cur ->
    Forall token_entry out ->
    Forall token_entry (scan false rest is_inside cur out).
Proof.
  induction n as [|n IH]; intros rest ins cur out Hn Hrest Hcur Hout;
    destruct rest as [|c rest']; cbn [List.length] in Hn;
    try assumption; try lia.
  inversion Hrest as [|? ? Hc Hrest']; subst.
  assert (Hpush : forall v, Forall token_entry (out ++ [item false cur v])).
  { intros v. apply Forall_app. split; [assumption|].
    constructor; [now apply token_entry_item | constructor]. }
  cbn [scan].
  destruct (Ascii.eqb_spec c gmic_lbrace) as [->|Hl].
  - destruct ins.
    + apply IH; try assumption; [lia|].
      apply Forall_app. split; [assumption|].
      constructor; [split; [discriminate | assumption] | constructor].
    + destruct rest' as [|c' rest']; [constructor|].
      apply IH; try assumption; [lia | constructor].
  - destruct (Ascii.eqb_spec c gmic_rbrace) as [->|Hr].
    + destruct ins; [|constructor].
      destruct rest' as [|u [|v rest'']].
      * apply Hpush.
      * apply IH; try apply Hpush; try assumption; [lia | constructor].
      * destruct (Ascii.eqb u "_"%char && is_visibility v).
        -- apply IH; try apply Hpush; [cbn [List.length] in Hn; lia | | constructor].
           inversion Hrest' as [|? ? _ Hrest'']; subst.
           now inversion Hrest''.
        -- apply IH; try apply Hpush; try assumption; [lia | constructor].
    + destruct ins; [|constructor].
      apply IH; try assumption; [lia|].
      apply Forall_app. split; [assumption|].
      constructor; [split; assumption | constructor].
Qed.

Lemma QString_of_token (body : list ascii) (v : ascii) :
  Forall (fun c => c <> gmic_rbrace /\ c <> NUL) body ->
  QString_of_chars (_data (item false body v)) = string_of_list_ascii body.
Proof.
  intros Hb. unfold QString_of_chars. cbn [item _data].
  rewrite c_str_app_no_NUL.
  - now rewrite app_nil_r.
  - eapply Forall_impl; [|exact Hb]. now intros c [_ Hc].
Qed.

(** X3: for every input whose length fits an [int], every token-mode item
    is a row holding a text and its terminating NUL, the text having no
    closing brace and no NUL; so no string of [status2StringList] holds a
    closing brace. *)
Theorem status2StringList_tokens (status : QString) :
  Z.of_nat (strlen (toLocal8Bit status)) < 2 ^ 31 ->
  Forall token_entry (status2Items (constData (toLocal8Bit status)) false)
  /\ Forall (fun q => ~ In gmic_rbrace (list_ascii_of_string q))
            (status2StringList status).
Proof.
  intros Hlen.
  assert (He : Forall token_entry
                 (status2Items (constData (toLocal8Bit status)) false)).
  { unfold constData. rewrite status2Items_scan by assumption.
    destruct (c_str (toLocal8Bit status)) as [|c l] eqn:Ec; [constructor|].
    destruct (Ascii.eqb c gmic_lbrace); [|constructor].
    rewrite <- Ec.
    apply (scan_token_entries (List.length (c_str (toLocal8Bit status))));
      [lia | apply c_str_no_NUL | constructor | constructor]. }
  split; [exact He|].
  unfold status2StringList. apply Forall_map.
  eapply Forall_impl; [|exact He].
  intros img [body [-> Hbody]].
  rewrite (QString_of_token body NUL Hbody).
  rewrite list_ascii_of_string_of_list_ascii.
  intros Hin. rewrite Forall_forall in Hbody.
  now destruct (Hbody _ Hin) as [Hr _].
Qed.

Lemma status2StringList_tokens_witness :
  Z.of_nat (strlen (toLocal8Bit "{a{b}{c}_1")) < 2 ^ 31
  /\ status2StringList "{a{b}{c}_1" = ["a{b"; "c"]
  /\ Forall token_entry (status2Items (constData (toLocal8Bit "{a{b}{c}_1")) false)
  /\ Forall (fun q => ~ In gmic_rbrace (list_ascii_of_string q))
            (status2StringList "{a{b}{c}_1").
Proof.
  assert (Hh : Z.of_nat (strlen (toLocal8Bit "{a{b}{c}_1")) < 2 ^ 31)
    by (vm_compute; reflexivity).
  split; [exact Hh|]. split; [reflexivity|].
  exact (status2StringList_tokens "{a{b}{c}_1" Hh).
Defined.

Lemma wf_segment_chars (sg : segment) :
  wf_segment sg = true ->
  Forall (fun c => c <> gmic_rbrace /\ c <> NUL) (seg_body sg).
Proof.
  unfold wf_segment. intros Hwf. apply andb_true_iff in Hwf as [Hb _].
  rewrite forallb_forall in Hb. apply Forall_forall. intros c Hc.
  specialize (Hb c Hc). apply andb_true_iff in Hb as [Hr Hn].
  apply negb_true_iff in Hr, Hn.
  split; intros ->; discriminate.
Qed.

Lemma decoded_texts (segs : list segment) :
  forallb wf_segment segs = true ->
  map (fun img => QString_of_chars (_data img))
      (map (segment_item false) segs) =
  map segment_text segs.
Proof.
  intros Hwf. rewrite map_map. apply map_ext_in. intros sg Hsg.
  rewrite forallb_forall in Hwf.
  apply QString_of_token, wf_segment_chars, Hwf, Hsg.
Qed.

Lemma decoded_codes (Unspecified : Z) (segs : list segment) :
  forallb wf_segment segs = true ->
  map (fun img =>
         let c := nth 0 (_data img) NUL in
         if Ascii.eqb c NUL then Unspecified
         else char_val c - char_val "0"%char)
      (map (segment_item true) segs) =
  map (segment_code Unspecified) segs.
Proof.
  intros Hwf. rewrite map_map. apply map_ext_in. intros sg Hsg.
  rewrite forallb_forall in Hwf. specialize (Hwf sg Hsg).
  unfold segment_item, segment_code, item. cbn [_data nth].
  destruct (seg_visibility sg) as [d|] eqn:Ev; [|reflexivity].
  pose proof (is_visibility_not_NUL d (wf_segment_visibility sg d Hwf Ev)).
  destruct (Ascii.eqb_spec d NUL); [contradiction | reflexivity].
Qed.

(** X4: a status string of fewer than 2^31 characters written as segments
    [{text}], each with or without its suffix [_V], is read back by [status2StringList] as the list of the
    texts, suffixes left out; an opening brace inside a text is part of the
    text. *)
Theorem status2StringList_render (segs : list segment) :
  forallb wf_segment segs = true ->
  Z.of_nat (strlen (render segs)) < 2 ^ 31 ->
  status2StringList (status_string segs) = map segment_text segs.
Proof.
  intros Hwf Hlen.
  unfold status2StringList, status_string, toLocal8Bit, constData.
  rewrite list_ascii_of_string_of_list_ascii.
  rewrite status2Items_decodes by assumption.
  now apply decoded_texts.
Qed.

Lemma status2StringList_render_witness :
  (forallb wf_segment
     [seg_a; seg_b2; Segment (list_ascii_of_string "x{y") None] = true
   /\ Z.of_nat (strlen (render
        [seg_a; seg_b2; Segment (list_ascii_of_string "x{y") None])) < 2 ^ 31)
  /\ status2StringList "{a}{b}_2{x{y}" = ["a"; "b"; "x{y"].
Proof.
  assert (Hh : forallb wf_segment
     [seg_a; seg_b2; Segment (list_ascii_of_string "x{y") None] = true
   /\ Z.of_nat (strlen (render
        [seg_a; seg_b2; Segment (list_ascii_of_string "x{y") None])) < 2 ^ 31)
    by (split; [reflexivity | vm_compute; reflexivity]).
  split; [exact Hh|].
  exact (status2StringList_render
           [seg_a; seg_b2; Segment (list_ascii_of_string "x{y") None]
           (proj1 Hh) (proj2 Hh)).
Defined.

(** X5: the same string, of fewer than 2^31 characters, is read back by
    [status2Visibilities] as one code per segment: the digit of its suffix, or [Unspecified] when it has
    none. *)
Theorem status2Visibilities_render (Unspecified : Z) (segs : list segment) :
  forallb wf_segment segs = true ->
  Z.of_nat (strlen (render segs)) < 2 ^ 31 ->
  status2Visibilities Unspecified (status_string segs) =
  map (segment_code Unspecified) segs.
Proof.
  intros Hwf Hlen.
  unfold status2Visibilities, status_string, toLocal8Bit, constData.
  rewrite list_ascii_of_string_of_list_ascii.
  rewrite status2Items_decodes by assumption.
  now apply decoded_codes.
Qed.

Lemma status2Visibilities_render_witness :
  (forallb wf_segment [seg_a; seg_b2] = true
   /\ Z.of_nat (strlen (render [seg_a; seg_b2])) < 2 ^ 31)
  /\ status2Visibilities (-1) "{a}{b}_2" = [-1; 2].
Proof.
  assert (Hh : forallb wf_segment [seg_a; seg_b2] = true
   /\ Z.of_nat (strlen (render [seg_a; seg_b2])) < 2 ^ 31)
    by (split; [reflexivity | vm_compute; reflexivity]).
  split; [exact Hh|].
  exact (status2Visibilities_render (-1) [seg_a; seg_b2]
           (proj1 Hh) (proj2 Hh)).
Defined.

(** * Further properties of the worker *)

(** What [run] does to a field that none of its assignments names. *)
Lemma run_keeps {X : Type} (f : FilterThread -> X) (E : Engine) (H : Host) :
  (forall v t, f (set_errorMessage v t) = f t) ->
  (forall v t, f (set_failed v t) = f t) ->
  (forall v t, f (set_gmicAbort v t) = f t) ->
  (forall v t, f (set_gmicProgress v t) = f t) ->
  (forall v t, f (set_images v t) = f t) ->
  (forall v t, f (set_imageNames v t) = f t) ->
  (forall v t, f (set_gmicStatus v t) = f t) ->
  (forall v t, f (set_persistentMemoryOutput v t) = f t) ->
  forall t, f (run E H t) = f t.
Proof.
  intros He Hf Ha Hp Hi Hn Hs Ho t.
  assert (Hc : forall c t, f (store_cells c t) = f t)
    by (intros c t'; unfold store_cells; now rewrite Ha, Hp).
  unfold run, run_prologue, run_try, bind, assign, run_catch.
  match goal with
  | |- context [invoke E H ?cmd ?t0] =>
    pose proof (invoke_keeps f E H cmd Hc Hi Hn t0) as Hk;
      destruct (invoke E H cmd t0) as [[g|e] t1]
  end; cbn [snd] in Hk.
  - rewrite Ho, Hs, Hk, Hp, Ha, Hf, He. reflexivity.
  - rewrite Hf, He, Hn, Hi, Hk, Hp, Ha, Hf, He. reflexivity.
Qed.

(** X6: whatever the interpreter does, [run] leaves the command, the
    arguments, the environment and the log suffix of the thread as they
    were, and with them [fullCommand()]. *)
Theorem run_keeps_setup (E : Engine) (H : Host) (t : FilterThread) :
  _command (run E H t) = _command t
  /\ _arguments (run E H t) = _arguments t
  /\ _environment (run E H t) = _environment t
  /\ _logSuffix (run E H t) = _logSuffix t
  /\ fullCommand H (run E H t) = fullCommand H t.
Proof.
  assert (Hc : _command (run E H t) = _command t)
    by (apply run_keeps; reflexivity).
  assert (Ha : _arguments (run E H t) = _arguments t)
    by (apply run_keeps; reflexivity).
  repeat (split; [assumption || (apply run_keeps; reflexivity)|]).
  unfold fullCommand. now rewrite Hc, Ha.
Qed.

(** X7: when the interpreter invocation throws, [run] leaves the status
    string and the persistent-memory output of the thread as they were
    before: [gmicStatus()] and [parametersVisibilityStates()] still answer
    from the status of an earlier run. *)
Theorem run_throws_keeps_status (E : Engine) (H : Host) (t : FilterThread)
    (e : gmic_exception) :
  fst (invocation E H t) = Thrown e ->
  _gmicStatus (run E H t) = _gmicStatus t
  /\ persistentMemoryOutput (run E H t) = persistentMemoryOutput t
  /\ gmicStatus (run E H t) = gmicStatus t
  /\ (forall Unspecified : Z,
        parametersVisibilityStates Unspecified (run E H t) =
        parametersVisibilityStates Unspecified t).
Proof.
  unfold invocation, run, run_prologue, run_try, bind, run_catch.
  match goal with
  | |- context [invoke E H ?cmd ?t0] =>
    pose proof (invoke_keeps _gmicStatus E H cmd
                  (fun _ _ => eq_refl) (fun _ _ => eq_refl)
                  (fun _ _ => eq_refl) t0) as Hs;
      pose proof (invoke_keeps _persistentMemoryOutput E H cmd
                    (fun _ _ => eq_refl) (fun _ _ => eq_refl)
                    (fun _ _ => eq_refl) t0) as Ho;
      destruct (invoke E H cmd t0) as [[g|e'] t1]
  end; cbn [fst snd] in *; intros He; [discriminate He|].
  unfold gmicStatus, parametersVisibilityStates, persistentMemoryOutput.
  cbn in Hs, Ho |- *. rewrite Hs, Ho. repeat split.
Qed.

Lemma run_throws_keeps_status_witness :
  fst (invocation sample_engine sample_host
         (set_gmicStatus "{3}_1" (sample_thread "blur" "boom"))) =
    Thrown {| what := sample_error |}
  /\ _gmicStatus (run sample_engine sample_host
                    (set_gmicStatus "{3}_1" (sample_thread "blur" "boom"))) =
       "{3}_1"
  /\ persistentMemoryOutput
       (run sample_engine sample_host
          (set_gmicStatus "{3}_1" (sample_thread "blur" "boom"))) = CImg_empty
  /\ gmicStatus (run sample_engine sample_host
                   (set_gmicStatus "{3}_1" (sample_thread "blur" "boom"))) =
       ["3"]
  /\ (forall Unspecified : Z,
        parametersVisibilityStates Unspecified
          (run sample_engine sample_host
             (set_gmicStatus "{3}_1" (sample_thread "blur" "boom"))) =
        parametersVisibilityStates Unspecified
          (set_gmicStatus "{3}_1" (sample_thread "blur" "boom"))).
Proof.
  split; [reflexivity|].
  exact (run_throws_keeps_status sample_engine sample_host
           (set_gmicStatus "{3}_1" (sample_thread "blur" "boom"))
           {| what := sample_error |} eq_refl).
Defined.

Lemma run_returned_status (E : Engine) (H : Host) (t : FilterThread)
    (gmicInstance : gmic E) :
  fst (invocation E H t) = Returned gmicInstance ->
  _gmicStatus (run E H t) =
  QString_of_chars (_data (gmic_status E gmicInstance)).
Proof.
  unfold invocation, run, run_try, bind, assign.
  destruct (run_prologue H t) as [cmd t0].
  destruct (invoke E H cmd t0) as [[g|e] t1]; cbn [fst]; intros Hg;
    [|discriminate Hg].
  injection Hg as ->. reflexivity.
Qed.

(** X8: after a [run] whose interpreter invocation returns with a status
    made of well-formed segments and shorter than 2^31 characters, [gmicStatus()] gives the texts of the
    segments and [parametersVisibilityStates()] their codes, one per
    segment and in the same order. *)
Theorem run_decodes_status (Unspecified : Z) (E : Engine) (H : Host)
    (t : FilterThread) (gmicInstance : gmic E) (segs : list segment) :
  fst (invocation E H t) = Returned gmicInstance ->
  c_str (_data (gmic_status E gmicInstance)) = render segs ->
  forallb wf_segment segs = true ->
  Z.of_nat (strlen (render segs)) < 2 ^ 31 ->
  gmicStatus (run E H t) = map segment_text segs
  /\ parametersVisibilityStates Unspecified (run E H t) =
     map (segment_code Unspecified) segs.
Proof.
  intros Hg Hst Hwf Hlen.
  unfold gmicStatus, parametersVisibilityStates.
  rewrite (run_returned_status E H t gmicInstance Hg).
  unfold QString_of_chars. rewrite Hst.
  unfold status2StringList, status2Visibilities, toLocal8Bit, constData.
  rewrite list_ascii_of_string_of_list_ascii.
  rewrite !status2Items_decodes by assumption.
  split; [now apply decoded_texts | now apply decoded_codes].
Qed.

Lemma run_decodes_status_witness :
  (fst (invocation sample_engine sample_host (sample_thread "blur" "1,2")) =
     Returned (Some (list_ascii_of_string "v - blur 1,2"))
   /\ c_str (_data (gmic_status sample_engine
                      (Some (list_ascii_of_string "v - blur 1,2")))) =
      render [Segment (list_ascii_of_string "12") None;
              Segment (list_ascii_of_string "7") (Some "2"%char)]
   /\ forallb wf_segment
        [Segment (list_ascii_of_string "12") None;
         Segment (list_ascii_of_string "7") (Some "2"%char)] = true
   /\ Z.of_nat (strlen (render
        [Segment (list_ascii_of_string "12") None;
         Segment (list_ascii_of_string "7") (Some "2"%char)])) < 2 ^ 31)
  /\ gmicStatus (run sample_engine sample_host (sample_thread "blur" "1,2")) =
       ["12"; "7"]
  /\ parametersVisibilityStates (-1)
       (run sample_engine sample_host (sample_thread "blur" "1,2")) = [-1; 2].
Proof.
  split.
  - split; [reflexivity|]. split; [reflexivity|].
    split; [reflexivity | vm_compute; reflexivity].
  - exact (run_decodes_status (-1) sample_engine sample_host
             (sample_thread "blur" "1,2")
             (Some (list_ascii_of_string "v - blur 1,2"))
             [Segment (list_ascii_of_string "12") None;
              Segment (list_ascii_of_string "7") (Some "2"%char)]
             eq_refl eq_refl eq_refl eq_refl).
Defined.


(** * The decoder reads nothing that is not there *)

Lemma starts_suffix_inv (rest : list ascii) :
  starts_suffix rest = true ->
  exists d rest'', rest = "_"%char :: d :: rest'' /\ is_visibility d = true.
Proof.
  destruct rest as [|u [|v rest'']]; try discriminate. cbn [starts_suffix].
  intros Hs. apply andb_true_iff in Hs as [Hu Hv].
  apply Ascii.eqb_eq in Hu. subst u. eauto.
Qed.

Lemma forallb_text_no_rbrace (l : list ascii) :
  forallb text_char l = true ->
  forallb (fun x => negb (Ascii.eqb x gmic_rbrace)) l = true.
Proof.
  induction l as [|c l IH]; [reflexivity|]. cbn [forallb]. unfold text_char at 1.
  intros Hl. apply andb_true_iff in Hl as [Hc Hl].
  apply andb_true_iff in Hc as [Hc _]. now rewrite Hc, IH.
Qed.

Lemma forallb_snoc {T : Type} (p : T -> bool) (l : list T) (x : T) :
  forallb p l = true -> p x = true -> forallb p (l ++ [x]) = true.
Proof.
  intros Hl Hx. rewrite forallb_app, Hl. cbn. now rewrite Hx.
Qed.

Lemma scan_lbrace_inside (ov : bool) (r cur : list ascii)
    (out : gmic_list ascii) :
  scan ov (gmic_lbrace :: r) true cur out =
  scan ov r true (cur ++ [gmic_lbrace]) out.
Proof. reflexivity. Qed.

Lemma scan_lbrace_outside (ov : bool) (c : ascii) (r cur : list ascii)
    (out : gmic_list ascii) :
  scan ov (gmic_lbrace :: c :: r) false cur out = scan ov (c :: r) true [] out.
Proof. reflexivity. Qed.

Lemma scan_other_inside (ov : bool) (c : ascii) (r cur : list ascii)
    (out : gmic_list ascii) :
  c <> gmic_lbrace -> c <> gmic_rbrace ->
  scan ov (c :: r) true cur out = scan ov r true (cur ++ [c]) out.
Proof.
  intros Hl Hr. cbn [scan].
  destruct (Ascii.eqb_spec c gmic_lbrace); [contradiction|].
  destruct (Ascii.eqb_spec c gmic_rbrace); [contradiction | reflexivity].
Qed.

Lemma scan_other_outside (ov : bool) (c : ascii) (r cur : list ascii)
    (out : gmic_list ascii) :
  c <> gmic_lbrace ->
  scan ov (c :: r) false cur out = [].
Proof.
  intros Hl. cbn [scan].
  destruct (Ascii.eqb_spec c gmic_lbrace); [contradiction|].
  destruct (Ascii.eqb c gmic_rbrace); reflexivity.
Qed.

(** The scan only ever answers with the items of segments it has met:
    [rest], after the opening brace and [cur] when inside a segment, is
    these segments and an open tail.  The segments are the same in both
    modes; [out] is what each mode has pushed so far. *)
Lemma scan_sound :
  forall (n : nat) (rest : list ascii) (is_inside : bool)
         (cur : list ascii) (out : bool -> gmic_list ascii),
    (List.length rest <= n)%nat ->
    forallb (fun c => negb (Ascii.eqb c NUL)) rest = true ->
    (is_inside = true -> forallb text_char cur = true /\ cur ++ rest <> []) ->
    (forall ov, scan ov rest is_inside cur (out ov) = [])
    \/ exists (segs : list segment) (tail : list ascii),
         forallb wf_segment segs = true
         /\ open_tail tail = true
         /\ (if is_inside then gmic_lbrace :: cur ++ rest else rest) =
            render segs ++ tail
         /\ forall ov, scan ov rest is_inside cur (out ov) =
                       out ov ++ map (segment_item ov) segs.
Proof.
  induction n as [|n IH]; intros rest ins cur out Hn Hrest Hcur;
    destruct rest as [|c rest']; cbn [List.length] in Hn; try lia.
  - (* the string is over *)
    right. exists [].
    destruct ins.
    + destruct (Hcur eq_refl) as [Hok Hne]. rewrite app_nil_r in Hne |- *.
      exists (gmic_lbrace :: cur). repeat split.
      * cbn [open_tail]. rewrite Ascii.eqb_refl.
        rewrite (forallb_text_no_rbrace cur Hok).
        destruct cur; [contradiction | reflexivity].
      * intros ov. cbn. now rewrite app_nil_r.
    + exists []. repeat split. intros ov. cbn. now rewrite app_nil_r.
  - right. exists [].
    destruct ins.
    + destruct (Hcur eq_refl) as [Hok Hne]. rewrite app_nil_r in Hne |- *.
      exists (gmic_lbrace :: cur). repeat split.
      * cbn [open_tail]. rewrite Ascii.eqb_refl.
        rewrite (forallb_text_no_rbrace cur Hok).
        destruct cur; [contradiction | reflexivity].
      * intros ov. cbn. now rewrite app_nil_r.
    + exists []. repeat split. intros ov. cbn. now rewrite app_nil_r.
  - cbn [forallb] in Hrest. apply andb_true_iff in Hrest as [Hc Hrest'].
    assert (Hinside : forallb text_char cur = true ->
              negb (Ascii.eqb c gmic_rbrace) = true ->
              (forall ov, scan ov rest' true (cur ++ [c]) (out ov) = [])
              \/ exists segs tail,
                   forallb wf_segment segs = true
                   /\ open_tail tail = true
                   /\ gmic_lbrace :: cur ++ c :: rest' = render segs ++ tail
                   /\ forall ov, scan ov rest' true (cur ++ [c]) (out ov) =
                                 out ov ++ map (segment_item ov) segs).
    { intros Hok Hcr.
      destruct (IH rest' true (cur ++ [c]) out) as [He|(segs & tail & H1 & H2 & H3 & H4)];
        [lia | assumption | | now left |].
      - intros _. split.
        + apply forallb_snoc; [assumption|]. unfold text_char. now rewrite Hcr, Hc.
        + destruct cur; discriminate.
      - right. exists segs, tail. rewrite <- app_assoc in H3. auto. }
    destruct (Ascii.eqb_spec c gmic_lbrace) as [->|Hl].
    + destruct ins.
      * destruct Hinside as [He|(segs & tail & H1 & H2 & H3 & H4)];
          [apply (Hcur eq_refl) | reflexivity | |].
        -- left. intros ov. rewrite scan_lbrace_inside. apply He.
        -- right. exists segs, tail. repeat split; try assumption;
             intros ov; rewrite scan_lbrace_inside; apply H4.
      * destruct rest' as [|c' rest']; [now left|].
        destruct (IH (c' :: rest') true [] out) as [He|(segs & tail & H1 & H2 & H3 & H4)];
          [cbn [List.length] in *; lia | assumption | | |].
        -- intros _. split; [reflexivity | discriminate].
        -- left. intros ov. rewrite scan_lbrace_outside. apply He.
        -- right. exists segs, tail. repeat split; try assumption;
             intros ov; rewrite scan_lbrace_outside; apply H4.
    + destruct (Ascii.eqb_spec c gmic_rbrace) as [->|Hr].
      * destruct ins; [|now left].
        destruct (Hcur eq_refl) as [Hok _].
        destruct (starts_suffix rest') eqn:Hs.
        -- destruct (starts_suffix_inv rest' Hs) as (d & rest'' & -> & Hd).
           destruct (IH rest'' false [] (fun ov => out ov ++ [item ov cur d]))
             as [He|(segs & tail & H1 & H2 & H3 & H4)];
             [cbn [List.length] in *; lia | | discriminate | |].
           { cbn [forallb] in Hrest'.
             apply andb_true_iff in Hrest' as [_ Hrest'].
             now apply andb_true_iff in Hrest' as [_ Hrest']. }
           ++ left. intros ov. rewrite scan_rbrace_inside, Hs. apply He.
           ++ right. exists (Segment cur (Some d) :: segs), tail.
              repeat split; try assumption.
              ** cbn [forallb]. rewrite H1. unfold wf_segment. cbn.
                 fold text_char. now rewrite Hok, Hd.
              ** cbn [render flat_map]. unfold render_segment. cbn.
                 rewrite H3. fold (render segs). now rewrite <- !app_assoc.
              ** intros ov. rewrite scan_rbrace_inside, Hs. cbn [skipn nth].
                 rewrite H4, <- app_assoc. reflexivity.
        -- destruct (IH rest' false [] (fun ov => out ov ++ [item ov cur NUL]))
             as [He|(segs & tail & H1 & H2 & H3 & H4)];
             [lia | assumption | discriminate | |].
           ++ left. intros ov. rewrite scan_rbrace_inside, Hs. apply He.
           ++ right. exists (Segment cur None :: segs), tail.
              repeat split; try assumption.
              ** cbn [forallb]. rewrite H1. unfold wf_segment. cbn.
                 fold text_char. now rewrite Hok.
              ** cbn [render flat_map]. unfold render_segment. cbn.
                 rewrite H3. fold (render segs). now rewrite <- !app_assoc.
              ** intros ov. rewrite scan_rbrace_inside, Hs.
                 rewrite H4, <- app_assoc. reflexivity.
      * destruct ins.
        -- destruct Hinside as [He|(segs & tail & H1 & H2 & H3 & H4)];
             [apply (Hcur eq_refl) | | |].
           ++ destruct (Ascii.eqb_spec c gmic_rbrace);
                [contradiction | reflexivity].
           ++ left. intros ov. rewrite scan_other_inside by assumption.
              apply He.
           ++ right. exists segs, tail. repeat split; try assumption;
                intros ov; rewrite scan_other_inside by assumption; apply H4.
        -- left. intros ov. now apply scan_other_outside.
Qed.

Lemma c_str_no_NUL_b (s : list ascii) :
  forallb (fun c => negb (Ascii.eqb c NUL)) (c_str s) = true.
Proof.
  apply forallb_forall. intros c Hc.
  pose proof (c_str_no_NUL s) as Hs. rewrite Forall_forall in Hs.
  apply negb_true_iff, Ascii.eqb_neq, Hs, Hc.
Qed.

(** X10: whenever [status2Items] answers in one mode with a list that is
    not empty (the length of the string fitting an [int]), the string is a
    sequence of well-formed segments, followed by nothing or by an opening
    brace with further characters and no closing brace; and in each mode
    the answer holds exactly one item per segment, in order: the i-th
    token and the i-th visibility belong to the same segment. *)
Theorem status2Items_sound (s : list ascii) (output_visibility : bool) :
  Z.of_nat (strlen s) < 2 ^ 31 ->
  status2Items (Some s) output_visibility <> [] ->
  exists (segs : list segment) (tail : list ascii),
    forallb wf_segment segs = true
    /\ open_tail tail = true
    /\ c_str s = render segs ++ tail
    /\ forall ov, status2Items (Some s) ov = map (segment_item ov) segs.
Proof.
  intros Hlen. rewrite status2Items_scan by assumption.
  destruct (c_str s) as [|c l] eqn:Ec; [congruence|].
  destruct (Ascii.eqb c gmic_lbrace) eqn:El; [|congruence].
  rewrite <- Ec. intros Hne.
  destruct (scan_sound (List.length (c_str s)) (c_str s) false []
              (fun _ => []))
    as [He|(segs & tail & H1 & H2 & H3 & H4)];
    [lia | apply c_str_no_NUL_b | discriminate | now rewrite He in Hne |].
  exists segs, tail. repeat split; try assumption.
  intros ov. rewrite status2Items_scan by assumption.
  rewrite Ec, El, <- Ec. apply H4.
Qed.

Lemma status2Items_sound_witness :
  (Z.of_nat (strlen (list_ascii_of_string "{a}{b}_2{xy")) < 2 ^ 31
   /\ status2Items (bytes "{a}{b}_2{xy") true <> [])
  /\ exists (segs : list segment) (tail : list ascii),
       forallb wf_segment segs = true
       /\ open_tail tail = true
       /\ c_str (list_ascii_of_string "{a}{b}_2{xy") = render segs ++ tail
       /\ forall ov, status2Items (bytes "{a}{b}_2{xy") ov =
                     map (segment_item ov) segs.
Proof.
  assert (Hh : Z.of_nat (strlen (list_ascii_of_string "{a}{b}_2{xy")) < 2 ^ 31
               /\ status2Items (bytes "{a}{b}_2{xy") true <> [])
    by (split; [vm_compute; reflexivity | discriminate]).
  split; [exact Hh|].
  exact (status2Items_sound (list_ascii_of_string "{a}{b}_2{xy") true
           (proj1 Hh) (proj2 Hh)).
Defined.

Lemma status2Items_unterminated_after_witness :
  (forallb wf_segment [seg_a; seg_b2] = true
   /\ Z.of_nat (strlen (render [seg_a; seg_b2]
                          ++ gmic_lbrace :: list_ascii_of_string "xy")) < 2 ^ 31
   /\ "x"%char <> NUL
   /\ forallb (fun x => negb (Ascii.eqb x gmic_rbrace))
              (list_ascii_of_string "xy") = true)
  /\ status2Items (bytes "{a}{b}_2{xy") false = [string_item "a"; string_item "b"].
Proof.
  assert (Hh : forallb wf_segment [seg_a; seg_b2] = true
   /\ Z.of_nat (strlen (render [seg_a; seg_b2]
                          ++ gmic_lbrace :: list_ascii_of_string "xy")) < 2 ^ 31
   /\ "x"%char <> NUL
   /\ forallb (fun x => negb (Ascii.eqb x gmic_rbrace))
              (list_ascii_of_string "xy") = true)
    by (split; [reflexivity | split; [vm_compute; reflexivity |
          split; [discriminate | reflexivity]]]).
  split; [exact Hh|].
  exact (status2Items_unterminated_after seg_a [seg_b2] "x"%char
           (list_ascii_of_string "y") false
           (proj1 Hh) (proj1 (proj2 Hh)) (proj1 (proj2 (proj2 Hh)))
           (proj2 (proj2 (proj2 Hh)))).
Defined.
